(** * parse_refs: a shallow embedding of [bibliography/parse_refs.py]

    The script reads a text file of ACL-formatted references, parses each
    blank-line separated block with [parse_reference], sorts the parsed
    tuples and writes an HTML page.

    Modelling choices.
    - A Python [str] is a [list ascii]; a character is its code point, so the
      model covers the code points below 256.  On that range [str.isspace],
      the [\s] and [\d] classes of [re] and [str.lower] are the functions
      [isspace], [isdecimal] and [lower_char] below.
    - [print] and exceptions are effects: a computation of type [M A] yields
      the lines it printed and either a value or the exception it raised.
    - The regular expressions of the script are sequences of single
      characters, character classes and greedy [class+] repetitions, joined
      by [|].  [match_atoms] is a backtracking matcher for exactly that
      fragment, with the priority order of [re]. *)

From Stdlib Require Import Ascii String DecimalString.
From Stdlib Require Import List ZArith Lia Bool Arith Permutation Sorted.
Import ListNotations.

Local Open Scope list_scope.

(** ** Strings *)

Definition str := list ascii.

(** A string literal of the script. *)
Definition lit (s : string) : str := list_ascii_of_string s.

(** [str.isspace] of one character, which is also what [\s] matches. *)
Definition isspace (c : ascii) : bool :=
  let n := nat_of_ascii c in
  ((9 <=? n) && (n <=? 13)) || ((28 <=? n) && (n <=? 32))
  || (n =? 133) || (n =? 160).

(** What [\d] matches (a decimal digit). *)
Definition isdecimal (c : ascii) : bool :=
  let n := nat_of_ascii c in (48 <=? n) && (n <=? 57).

Definition is_char (a : ascii) : ascii -> bool := Ascii.eqb a.

(** Membership of a character in a set given as a string, as in the argument
    of [rstrip('.,')]. *)
Definition in_chars (chars : str) (c : ascii) : bool :=
  existsb (Ascii.eqb c) chars.

Fixpoint drop_while (p : ascii -> bool) (s : str) : str :=
  match s with
  | [] => []
  | c :: s' => if p c then drop_while p s' else s
  end.

(** [s.lstrip()], [s.rstrip()], [s.strip()] and [s.rstrip(chars)]. *)
Definition lstrip (s : str) : str := drop_while isspace s.
Definition rstrip_by (p : ascii -> bool) (s : str) : str :=
  rev (drop_while p (rev s)).
Definition rstrip (s : str) : str := rstrip_by isspace s.
Definition strip (s : str) : str := rstrip (lstrip s).
Definition rstrip_chars (chars : str) (s : str) : str :=
  rstrip_by (in_chars chars) s.

(** Truth value of a string or of a list: non-empty. *)
Definition truthy {A} (l : list A) : bool :=
  match l with [] => false | _ => true end.

(** [s.endswith(suffix)]. *)
Fixpoint startswith (prefix s : str) : bool :=
  match prefix, s with
  | [], _ => true
  | a :: p', c :: s' => Ascii.eqb a c && startswith p' s'
  | _ :: _, [] => false
  end.
Definition endswith (s suffix : str) : bool :=
  startswith (rev suffix) (rev s).

(** [s.split()]: the maximal runs of non-whitespace characters. *)
Fixpoint split_ws (s : str) : list str :=
  match s with
  | [] => []
  | c :: s' =>
      if isspace c then split_ws s'
      else
        match s' with
        | [] => [[c]]
        | c' :: _ =>
            if isspace c' then [c] :: split_ws s'
            else
              match split_ws s' with
              | t :: ts => (c :: t) :: ts
              | [] => [[c]]
              end
        end
  end.

(** [s.split(sep)] for a non-empty separator: [cur] holds, reversed, the
    characters of the piece being read. *)
Fixpoint split_sep_aux (sep : str) (skip : nat) (cur : str) (s : str)
  : list str :=
  match s with
  | [] => [rev cur]
  | c :: s' =>
      match skip with
      | S k => split_sep_aux sep k cur s'
      | O =>
          if startswith sep s
          then rev cur :: split_sep_aux sep (length sep - 1) [] s'
          else split_sep_aux sep 0 (c :: cur) s'
      end
  end.
Definition split_sep (sep s : str) : list str := split_sep_aux sep 0 [] s.

(** [sep.join(parts)]. *)
Fixpoint join (sep : str) (parts : list str) : str :=
  match parts with
  | [] => []
  | [p] => p
  | p :: ps => p ++ sep ++ join sep ps
  end.

(** [s.lower()]. *)
Definition lower_char (c : ascii) : ascii :=
  let n := nat_of_ascii c in
  if ((65 <=? n) && (n <=? 90))
     || ((192 <=? n) && (n <=? 222) && negb (n =? 215))
  then ascii_of_nat (n + 32) else c.
Definition lower (s : str) : str := map lower_char s.

(** Comparison of strings with [<]: lexicographic on code points. *)
Fixpoint str_ltb (a b : str) : bool :=
  match a, b with
  | [], [] => false
  | [], _ :: _ => true
  | _ :: _, [] => false
  | x :: a', y :: b' =>
      if nat_of_ascii x <? nat_of_ascii y then true
      else if nat_of_ascii y <? nat_of_ascii x then false
      else str_ltb a' b'
  end.

Definition str_eqb (a b : str) : bool :=
  if list_eq_dec ascii_dec a b then true else false.

(** [str(n)] and [{n}] in an f-string, for an integer. *)
Definition str_of_Z (z : Z) : str :=
  lit (NilZero.string_of_int (Z.to_int z)).

(** ** Effects: printed lines and exceptions *)

Inductive exc : Type := ValueError | IndexError.

Inductive result (A : Type) : Type :=
| Ok (a : A)
| Raise (e : exc).
Arguments Ok {A} a.
Arguments Raise {A} e.

(** A computation: its outcome and the lines it printed, in order. *)
Definition M (A : Type) : Type := (result A * list str)%type.

Definition ret {A} (a : A) : M A := (Ok a, []).
Definition raise {A} (e : exc) : M A := (Raise e, []).
Definition print (line : str) : M unit := (Ok tt, [line]).
Definition bind {A B} (m : M A) (f : A -> M B) : M B :=
  match m with
  | (Ok a, out) => let (r, out') := f a in (r, out ++ out')
  | (Raise e, out) => (Raise e, out)
  end.

Declare Scope py_scope.
Delimit Scope py_scope with py.
Notation "x <- m ;; k" := (bind m (fun x => k))
  (at level 61, m at next level, right associativity) : py_scope.
Notation "m ;;; k" := (bind m (fun _ => k))
  (at level 61, right associativity) : py_scope.

Definition outcome {A} (m : M A) : result A := fst m.
Definition printed {A} (m : M A) : list str := snd m.

(** [l[i]] for a list: negative indices count from the end, an index out
    of range raises [IndexError]. *)
Definition getitem {A} (l : list A) (i : Z) : M A :=
  let j := if (i <? 0)%Z then (i + Z.of_nat (length l))%Z else i in
  if (j <? 0)%Z then raise IndexError
  else match nth_error l (Z.to_nat j) with
       | Some a => ret a
       | None => raise IndexError
       end.

(** [int(s)] for a string of decimal digits; any other string raises
    [ValueError] here (the script only converts the group matched by
    [\d{4}]). *)
Definition digit_value (c : ascii) : Z := Z.of_nat (nat_of_ascii c - 48).
Definition decimal_value (s : str) : Z :=
  fold_left (fun acc c => (acc * 10 + digit_value c)%Z) s 0%Z.
Definition py_int (s : str) : M Z :=
  if truthy s && forallb isdecimal s
  then ret (decimal_value s)
  else raise ValueError.

(** ** Regular expressions *)

(** One element of a pattern: a single character of a class ([\.], [a],
    [\s], [\d]) or a greedy repetition [class+]. *)
Inductive atom : Type :=
| One (p : ascii -> bool)
| Many1 (p : ascii -> bool).

(** A pattern: the alternatives of a [|], each a sequence of atoms. *)
Definition regex := list (list atom).

(** Zero or more characters of class [p], then the continuation [K]: the
    longest run is tried first and given back one character at a time. *)
Fixpoint many {A} (p : ascii -> bool) (K : str -> option A) (s : str)
  : option (str * A) :=
  match s with
  | c :: s' =>
      if p c then
        match many p K s' with
        | Some (m, a) => Some (c :: m, a)
        | None => option_map (pair []) (K s)
        end
      else option_map (pair []) (K s)
  | [] => option_map (pair []) (K s)
  end.

(** Match a sequence of atoms at the start of [s]: the text matched by each
    atom and the rest of [s]. *)
Fixpoint match_atoms (atoms : list atom) (s : str)
  : option (list str * str) :=
  match atoms with
  | [] => Some ([], s)
  | One p :: k =>
      match s with
      | c :: s' =>
          if p c then
            match match_atoms k s' with
            | Some (segs, rest) => Some ([c] :: segs, rest)
            | None => None
            end
          else None
      | [] => None
      end
  | Many1 p :: k =>
      match s with
      | c :: s' =>
          if p c then
            match many p (match_atoms k) s' with
            | Some (m, (segs, rest)) => Some ((c :: m) :: segs, rest)
            | None => None
            end
          else None
      | [] => None
      end
  end.

(** The alternatives are tried from left to right. *)
Fixpoint match_alts (r : regex) (s : str) : option (list str * str) :=
  match r with
  | [] => None
  | a :: r' =>
      match match_atoms a s with
      | Some x => Some x
      | None => match_alts r' s
      end
  end.

(** A match object: where the match starts and the text of each atom. *)
Record rmatch : Type := mk_rmatch { m_start : nat; m_segs : list str }.

Definition m_end (m : rmatch) : nat :=
  m_start m + length (concat (m_segs m)).

(** The text matched by [len] consecutive atoms from atom [from] on: a
    capturing group. *)
Definition m_group (m : rmatch) (from len : nat) : str :=
  concat (firstn len (skipn from (m_segs m))).

(** [re.search(r, s)]: the match at the leftmost position that has one. *)
Fixpoint search_from (r : regex) (i : nat) (s : str) : option rmatch :=
  match match_alts r s with
  | Some (segs, _) => Some (mk_rmatch i segs)
  | None =>
      match s with
      | [] => None
      | _ :: s' => search_from r (S i) s'
      end
  end.
Definition re_search (r : regex) (s : str) : option rmatch :=
  search_from r 0 s.

(** [re.split(r, s, maxsplit)] for a pattern without groups that matches no
    empty string; [limit] is [None] for [maxsplit=0] (no limit).  Each match
    consumes a character, so [S (length s)] steps are enough. *)
Fixpoint re_split_aux (fuel : nat) (r : regex) (limit : option nat) (s : str)
  : list str :=
  match fuel with
  | O => [s]
  | S fuel' =>
      match limit with
      | Some O => [s]
      | _ =>
          match re_search r s with
          | None => [s]
          | Some m =>
              firstn (m_start m) s
              :: re_split_aux fuel' r (option_map pred limit)
                   (skipn (m_end m) s)
          end
      end
  end.
Definition re_split (r : regex) (maxsplit : nat) (s : str) : list str :=
  re_split_aux (S (length s)) r
    (if maxsplit =? 0 then None else Some maxsplit) s.

(** The four patterns of the script. *)

(** [\.\s+(\d{4})\.\s+]; atoms 2 to 5 are group 1. *)
Definition year_re : regex :=
  [[One (is_char "."); Many1 isspace;
    One isdecimal; One isdecimal; One isdecimal; One isdecimal;
    One (is_char "."); Many1 isspace]].

(** [,|\s+and\s+] *)
Definition author_sep_re : regex :=
  [[One (is_char ",")];
   [Many1 isspace; One (is_char "a"); One (is_char "n"); One (is_char "d");
    Many1 isspace]].

(** [\.\s+In\s+] *)
Definition in_re : regex :=
  [[One (is_char "."); Many1 isspace; One (is_char "I"); One (is_char "n");
    Many1 isspace]].

(** [\.\s+] *)
Definition sentence_re : regex :=
  [[One (is_char "."); Many1 isspace]].

(** ** parse_reference *)

(** The tuple [(first_author_last, year, authors_str, title, venue)]. *)
Record reference : Type := mk_reference {
  first_author_last : str;
  year : Z;
  authors_str : str;
  title : str;
  venue : str
}.

Local Open Scope py_scope.

(** Lines 72-73: the clean-up of the title. *)
Definition clean_title (title : str) : str :=
  if truthy title && negb (endswith title (lit "."))
  then rstrip_chars (lit ".") title
  else title.

(** Lines 36-45: the last name of the first author. *)
Definition first_author (authors_str : str) : M str :=
  seg <- getitem (re_split author_sep_re 0 authors_str) 0 ;;
  let first_author_parts := strip seg in
  let name_parts := split_ws first_author_parts in
  if 2 <=? length name_parts then
    last <- getitem name_parts (-1) ;;
    ret (rstrip_chars (lit ".,") last)
  else if truthy name_parts then
    only <- getitem name_parts 0 ;;
    ret (rstrip_chars (lit ".,") only)
  else ret (lit "Unknown").

(** Lines 48-69: title and venue out of the text after the year. *)
Definition title_venue (after_year : str) : M (str * str) :=
  match re_search in_re after_year with
  | Some in_match =>
      ret (strip (firstn (m_start in_match) after_year),
           strip (skipn (m_start in_match + 1) after_year))
  | None =>
      let sentences := re_split sentence_re 1 after_year in
      if 2 <=? length sentences then
        s0 <- getitem sentences 0 ;;
        s1 <- getitem sentences 1 ;;
        ret (strip s0, strip s1)
      else ret (strip after_year, [])
  end.

Definition warning (ref_text : str) : str :=
  lit "Warning: Could not find year in: " ++ firstn 100 ref_text ++ lit "...".

Definition parse_reference (ref_text : str) : M (option reference) :=
  let ref_text := strip ref_text in
  if negb (truthy ref_text) then ret None
  else
    match re_search year_re ref_text with
    | None => print (warning ref_text) ;;; ret None
    | Some year_match =>
        year <- py_int (m_group year_match 2 4) ;;
        let year_pos := m_start year_match in
        let authors_str := strip (firstn year_pos ref_text) in
        first_author_last <- first_author authors_str ;;
        let after_year := strip (skipn (m_end year_match) ref_text) in
        tv <- title_venue after_year ;;
        let title := clean_title (fst tv) in
        ret (Some (mk_reference first_author_last year authors_str title
                     (snd tv)))
    end.

(** ** main *)

(** Comparison of two sort keys [(str, int)] with [<], as tuples are
    compared: by the first component, and by the second when those are
    equal. *)
Definition key_ltb (a b : str * Z) : bool :=
  if str_eqb (fst a) (fst b) then (snd a <? snd b)%Z
  else str_ltb (fst a) (fst b).

(** [list.sort(key=...)] is a stable sort that compares the keys with [<]:
    an element is inserted before the first element whose key is not below
    its own, so it stays ahead of the later elements with an equal key. *)
Section Sort.
Context {A K : Type} (ltb : K -> K -> bool) (key : A -> K).

Fixpoint insert_by (x : A) (l : list A) : list A :=
  match l with
  | [] => [x]
  | y :: l' => if ltb (key y) (key x) then y :: insert_by x l' else x :: l
  end.

Fixpoint sort_by (l : list A) : list A :=
  match l with
  | [] => []
  | x :: l' => insert_by x (sort_by l')
  end.

(** [x] may stand before [y]: the key of [y] is not below that of [x]. *)
Definition in_order (x y : A) : Prop := ltb (key y) (key x) = false.
End Sort.

(** Line 93: the key [lambda x: (x[0].lower(), x[1])]. *)
Definition sort_key (x : reference) : str * Z :=
  (lower (first_author_last x), year x).

Definition sort_refs (parsed_refs : list reference) : list reference :=
  sort_by key_ltb sort_key parsed_refs.

(** Lines 86-90: the loop over the raw blocks. *)
Fixpoint parse_all (raw_refs : list str) (parsed_refs : list reference)
  : M (list reference) :=
  match raw_refs with
  | [] => ret parsed_refs
  | raw_ref :: rest =>
      result <- parse_reference raw_ref ;;
      match result with
      | Some r => parse_all rest (parsed_refs ++ [r])
      | None => parse_all rest parsed_refs
      end
  end.

(** The double quote character. *)
Definition dq : str := [ascii_of_nat 34].

(** Lines 96-112: the fixed lines at the top of the page. *)
Definition html_head : list str :=
  [lit "<!DOCTYPE html>";
   lit "<html>";
   lit "<head>";
   lit "  <meta charset=" ++ dq ++ lit "utf-8" ++ dq ++ lit ">";
   lit "  <title>Bibliography</title>";
   lit "  <link rel=" ++ dq ++ lit "preconnect" ++ dq ++ lit " href=" ++ dq
     ++ lit "https://fonts.googleapis.com" ++ dq ++ lit ">";
   lit "  <link rel=" ++ dq ++ lit "preconnect" ++ dq ++ lit " href=" ++ dq
     ++ lit "https://fonts.gstatic.com" ++ dq ++ lit " crossorigin>";
   lit "  <link href=" ++ dq
     ++ lit "https://fonts.googleapis.com/css2?family=Roboto:ital,wght@0,400;0,700;1,400&display=swap"
     ++ dq ++ lit " rel=" ++ dq ++ lit "stylesheet" ++ dq ++ lit ">";
   lit "  <style>";
   lit "    body { font-family: " ++ dq ++ lit "Times New Roman" ++ dq
     ++ lit ", serif; margin: 40px; line-height: 1.6; }";
   lit "    .reference { font-family: " ++ dq ++ lit "Roboto" ++ dq
     ++ lit ", sans-serif; margin-bottom: 1em; text-indent: -2em; padding-left: 2em; }";
   lit "    .title { font-weight: bold; }";
   lit "    .venue { font-style: italic; }";
   lit "  </style>";
   lit "</head>";
   lit "<body>";
   lit "  <h1>Bibliography</h1>"].

(** Lines 114-127: the lines of one entry. *)
Definition html_entry (r : reference) : list str :=
  [lit "  <div class=" ++ dq ++ lit "reference" ++ dq ++ lit ">";
   lit "    " ++ authors_str r ++ lit ". " ++ str_of_Z (year r) ++ lit ". ";
   lit "<span class=" ++ dq ++ lit "title" ++ dq ++ lit ">" ++ title r
     ++ lit "</span>. "]
  ++ (if truthy (venue r)
      then [lit "<span class=" ++ dq ++ lit "venue" ++ dq ++ lit ">"
              ++ venue r ++ lit "</span>"]
      else [])
  ++ [lit "  </div>"].

Definition html_lines (parsed_refs : list reference) : list str :=
  html_head ++ flat_map html_entry parsed_refs
  ++ [lit "</body>"; lit "</html>"].

Definition newline : str := [ascii_of_nat 10].

(** [main], given the text read from [refs_2.txt]: the references as
    sorted and the text written to [out.html].  Opening the two files is
    outside the model. *)
Definition main (content : str) : M (list reference * str) :=
  let raw_refs := split_sep (newline ++ newline) content in
  parsed_refs <- parse_all raw_refs [] ;;
  let parsed_refs := sort_refs parsed_refs in
  let html := join newline (html_lines parsed_refs) in
  print (lit "Successfully parsed "
           ++ str_of_Z (Z.of_nat (length parsed_refs))
           ++ lit " references.") ;;;
  print (lit "Output written to out.html") ;;;
  ret (parsed_refs, html).

Local Close Scope py_scope.

(** * Notions used in the statements

    The language of a pattern, the year delimiter and the author
    separator as conditions on the text, the derivation of the last name as
    the specification words it, and the values the monadic functions
    return. *)

(** The text one atom can match. *)
Inductive atom_matches : atom -> str -> Prop :=
| am_one p c : p c = true -> atom_matches (One p) [c]
| am_many1 p c m :
    p c = true -> forallb p m = true -> atom_matches (Many1 p) (c :: m).

(** [segs] gives, atom by atom, a text the sequence [atoms] can match. *)
Definition atoms_match (atoms : list atom) (segs : list str) : Prop :=
  Forall2 atom_matches atoms segs.

(** [s] starts with a text of pattern [r]. *)
Definition starts_with_match (r : regex) (s : str) : Prop :=
  exists atoms segs rest,
    In atoms r /\ atoms_match atoms segs /\ s = concat segs ++ rest.

(** What [title_venue] returns: it raises nothing and prints nothing. *)
Definition title_venue_value (after_year : str) : str * str :=
  match re_search in_re after_year with
  | Some in_match =>
      (strip (firstn (m_start in_match) after_year),
       strip (skipn (m_start in_match + 1) after_year))
  | None =>
      match re_search sentence_re after_year with
      | Some m =>
          (strip (firstn (m_start m) after_year),
           strip (skipn (m_end m) after_year))
      | None => (strip after_year, [])
      end
  end.

(** [s] starts with whitespace, the word [and] and whitespace again. *)
Definition at_word_and (s : str) : bool :=
  match s with
  | c :: _ =>
      isspace c
      && match lstrip s with
         | a :: n :: d :: c' :: _ =>
             is_char "a" a && is_char "n" n && is_char "d" d && isspace c'
         | _ => false
         end
  | [] => false
  end.

(** [s] starts with a separator of the author list: a comma, or the word
    [and] with its whitespace. *)
Definition at_author_sep (s : str) : bool :=
  match s with
  | c :: _ => is_char "," c || at_word_and s
  | [] => false
  end.

(** The segment before the first comma or the first word [and], whichever
    comes first. *)
Fixpoint spec_first_segment (s : str) : str :=
  match s with
  | [] => []
  | c :: s' => if at_author_sep s then [] else c :: spec_first_segment s'
  end.

(** The last whitespace-separated token of the segment without its trailing
    periods and commas, or [Unknown] when there is no token. *)
Definition spec_last_name (segment : str) : str :=
  match split_ws segment with
  | [] => lit "Unknown"
  | t :: ts => rstrip_chars (lit ".,") (last ts t)
  end.

Definition spec_first_author_last (authorsText : str) : str :=
  spec_last_name (spec_first_segment authorsText).

(** [s] starts with the year delimiter: a period, whitespace, four digits,
    a period, whitespace. *)
Definition year_delim_prefix (s : str) : Prop :=
  exists ws1 d ws2 post,
    s = "."%char :: ws1 ++ d ++ "."%char :: ws2 ++ post
    /\ ws1 <> [] /\ forallb isspace ws1 = true
    /\ length d = 4 /\ forallb isdecimal d = true
    /\ ws2 <> [] /\ forallb isspace ws2 = true.

(** [s] contains the year delimiter. *)
Definition contains_year_delim (s : str) : Prop :=
  exists pre post, s = pre ++ post /\ year_delim_prefix post.

(** The same test on the start of [s], as a function. *)
Definition year_delim_here (s : str) : bool :=
  match s with
  | dot :: (w :: _) as r =>
      is_char "." dot && isspace w
      && match lstrip r with
         | d1 :: d2 :: d3 :: d4 :: dot' :: w' :: _ =>
             isdecimal d1 && isdecimal d2 && isdecimal d3 && isdecimal d4
             && is_char "." dot' && isspace w'
         | _ => false
         end
  | _ => false
  end.

(** [s] starts with a period followed by whitespace. *)
Definition period_then_space (s : str) : bool :=
  match s with
  | dot :: w :: _ => is_char "." dot && isspace w
  | _ => false
  end.

(** The positions of [s], counted from [i], where [p] holds of the text
    from there on. *)
Fixpoint positions_from (p : str -> bool) (i : nat) (s : str) : list nat :=
  (if p s then [i] else [])
  ++ match s with
     | [] => []
     | _ :: s' => positions_from p (S i) s'
     end.

(** Where the year delimiter occurs in [s]. *)
Definition year_delim_positions (s : str) : list nat :=
  positions_from year_delim_here 0 s.

(** The tuple returned for a block whose stripped text is [ref_text] and
    whose year was matched by [year_match]. *)
Definition parsed_value (ref_text : str) (year_match : rmatch) : reference :=
  let authors_str := strip (firstn (m_start year_match) ref_text) in
  let tv := title_venue_value (strip (skipn (m_end year_match) ref_text)) in
  mk_reference (spec_first_author_last authors_str)
    (decimal_value (m_group year_match 2 4)) authors_str
    (clean_title (fst tv)) (snd tv).

(** The references and the printed lines of the loop over the blocks. *)
Definition parsed_of (raw_refs : list str) : list reference :=
  flat_map (fun b => match outcome (parse_reference b) with
                     | Ok (Some r) => [r]
                     | _ => []
                     end) raw_refs.

Definition warnings_of (raw_refs : list str) : list str :=
  flat_map (fun b => printed (parse_reference b)) raw_refs.

(** Every occurrence of [and] in [s] touches a character that is not
    whitespace, before it ([prev] is the character before [s]) or after
    it: it is part of a longer word. *)
Fixpoint and_inside_words (prev : option ascii) (s : str) : bool :=
  match s with
  | [] => true
  | c :: s' =>
      (if startswith (lit "and") s
       then match prev with
            | Some p => negb (isspace p)
            | None => false
            end
            || match s' with
               | _ :: _ :: c' :: _ => negb (isspace c')
               | _ => false
               end
       else true)
      && and_inside_words (Some c) s'
  end.

(** Equality of two sort keys. *)
Definition key_eqb (a b : str * Z) : bool :=
  str_eqb (fst a) (fst b) && (snd a =? snd b)%Z.

(** The order of the keys in words: the first components in strict order,
    or equal and the years in order. *)
Definition key_le (a b : str * Z) : Prop :=
  str_ltb (fst a) (fst b) = true \/ (fst a = fst b /\ (snd a <= snd b)%Z).

(** [a] occurs in [s] as a run of consecutive characters. *)
Definition infix (a s : str) : Prop := exists pre post, s = pre ++ a ++ post.

(** No text of pattern [r] starts anywhere inside [t]. *)
Definition no_match_inside (r : regex) (t : str) : Prop :=
  forall pre post, t = pre ++ post -> ~ starts_with_match r post.

(** The last atom of every alternative of [r] is [\s+]. *)
Definition ends_with_spaces (r : regex) : Prop :=
  forall atoms, In atoms r -> exists k, atoms = k ++ [Many1 isspace].

(** The ten decimal digits. *)
Definition decimal_digits : list ascii := map ascii_of_nat (seq 48 10).

(** For every four digits of which the first is not [0], printing the
    number they write gives the four digits back. *)
Definition year_prints_back : bool :=
  forallb (fun d1 =>
    Ascii.eqb d1 "0"
    || forallb (fun d2 =>
         forallb (fun d3 =>
           forallb (fun d4 =>
             str_eqb (str_of_Z (decimal_value [d1; d2; d3; d4]))
               [d1; d2; d3; d4])
             decimal_digits) decimal_digits) decimal_digits)
    decimal_digits.

(** * Properties *)

(** ** Characters *)

Arguments isspace : simpl never.
Arguments isdecimal : simpl never.
Arguments is_char : simpl never.

Lemma is_char_true a c : is_char a c = true <-> c = a.
Proof.
  unfold is_char. rewrite Ascii.eqb_eq. split; congruence.
Qed.

Lemma period_not_space : isspace "." = false.
Proof. reflexivity. Qed.

Lemma decimal_not_space c : isdecimal c = true -> isspace c = false.
Proof.
  unfold isdecimal, isspace. cbv zeta. intros H.
  apply andb_true_iff in H. destruct H as [H1 H2].
  apply Nat.leb_le in H1. apply Nat.leb_le in H2.
  repeat (apply orb_false_iff; split).
  - apply andb_false_iff. right. apply Nat.leb_gt. lia.
  - apply andb_false_iff. right. apply Nat.leb_gt. lia.
  - apply Nat.eqb_neq. lia.
  - apply Nat.eqb_neq. lia.
Qed.

(** Rewrite with the boolean facts at hand. *)
Ltac bool_facts :=
  repeat match goal with
    | H : ?x = true |- context [?x] => rewrite H
    | H : ?x = false |- context [?x] => rewrite H
    end;
  try reflexivity.

Ltac inv_atoms :=
  repeat match goal with
    | H : atoms_match (_ :: _) _ |- _ => inversion H; clear H; subst
    | H : atoms_match [] _ |- _ => inversion H; clear H; subst
    | H : Forall2 atom_matches (_ :: _) _ |- _ => inversion H; clear H; subst
    | H : Forall2 atom_matches [] _ |- _ => inversion H; clear H; subst
    | H : atom_matches (One _) _ |- _ => inversion H; clear H; subst
    | H : atom_matches (Many1 _) _ |- _ => inversion H; clear H; subst
    | H : is_char _ _ = true |- _ => apply is_char_true in H; subst
    end.

(** ** Stripping *)

Lemma drop_while_app_all p l s :
  forallb p l = true -> drop_while p (l ++ s) = drop_while p s.
Proof.
  induction l as [|c l IH]; simpl; intros H; [reflexivity|].
  apply andb_true_iff in H. destruct H as [Hc Hl].
  rewrite Hc. apply IH, Hl.
Qed.

Lemma drop_while_all p l : forallb p l = true -> drop_while p l = [].
Proof.
  intros H. rewrite <- (app_nil_r l).
  rewrite drop_while_app_all by assumption. reflexivity.
Qed.

Lemma drop_while_stop p c s : p c = false -> drop_while p (c :: s) = c :: s.
Proof. intros H. simpl. rewrite H. reflexivity. Qed.

(** What [drop_while] removes is a run of [p], and what it leaves does not
    start with [p]. *)
Lemma drop_while_spec p s :
  exists lead, s = lead ++ drop_while p s /\ forallb p lead = true
    /\ (drop_while p s = [] \/
        exists c r, drop_while p s = c :: r /\ p c = false).
Proof.
  induction s as [|c s IH]; simpl.
  - exists []. auto.
  - destruct (p c) eqn:Hc.
    + destruct IH as (lead & E & Hl & Hd).
      exists (c :: lead). simpl. rewrite Hc, Hl.
      split; [f_equal; exact E|]. split; [reflexivity|exact Hd].
    + exists []. split; [reflexivity|]. split; [reflexivity|].
      right. exists c, s. auto.
Qed.

Lemma rstrip_by_app_all p s t :
  forallb p t = true -> rstrip_by p (s ++ t) = rstrip_by p s.
Proof.
  intros H. unfold rstrip_by. rewrite rev_app_distr.
  rewrite drop_while_app_all; [reflexivity|].
  rewrite forallb_forall in *. intros x Hx. apply H.
  apply in_rev. exact Hx.
Qed.

Lemma rstrip_by_snoc p s c :
  p c = false -> rstrip_by p (s ++ [c]) = s ++ [c].
Proof.
  intros H. unfold rstrip_by. rewrite rev_app_distr. simpl.
  rewrite H. simpl. rewrite rev_involutive. reflexivity.
Qed.

(** What [rstrip_by] removes is a run of [p], and what it leaves does not
    end with [p]. *)
Lemma rstrip_by_spec p s :
  exists trail, s = rstrip_by p s ++ trail /\ forallb p trail = true
    /\ (rstrip_by p s = [] \/
        exists r c, rstrip_by p s = r ++ [c] /\ p c = false).
Proof.
  unfold rstrip_by.
  destruct (drop_while_spec p (rev s)) as (lead & E & Hl & Hd).
  exists (rev lead). split; [|split].
  - rewrite <- rev_app_distr, <- E, rev_involutive. reflexivity.
  - rewrite forallb_forall in *. intros x Hx. apply Hl.
    apply in_rev. exact Hx.
  - destruct Hd as [Hd | (c & r & Hd & Hc)].
    + left. rewrite Hd. reflexivity.
    + right. exists (rev r), c. rewrite Hd. simpl. auto.
Qed.

(** A string that starts and ends outside [p] is left as it is. *)
Lemma rstrip_by_cons_stop p c s :
  p c = false -> exists r, rstrip_by p (c :: s) = c :: r.
Proof.
  intros Hc.
  destruct (rstrip_by_spec p (c :: s)) as (trail & E & Ht & Hd).
  destruct (rstrip_by p (c :: s)) as [|x r] eqn:Hr.
  - simpl in E. subst trail. simpl in Ht. rewrite Hc in Ht. discriminate.
  - simpl in E. injection E as -> _. exists r. reflexivity.
Qed.

Lemma strip_cons_stop c s :
  isspace c = false -> exists r, strip (c :: s) = c :: r.
Proof.
  intros Hc. unfold strip, lstrip, rstrip.
  rewrite drop_while_stop by assumption.
  apply rstrip_by_cons_stop, Hc.
Qed.

Lemma strip_app_ws_l w s :
  forallb isspace w = true -> strip (w ++ s) = strip s.
Proof.
  intros H. unfold strip, lstrip. rewrite drop_while_app_all by assumption.
  reflexivity.
Qed.

Lemma lstrip_rstrip_stop c s :
  isspace c = false -> lstrip (rstrip (c :: s)) = rstrip (c :: s).
Proof.
  intros Hc. unfold rstrip.
  destruct (rstrip_by_cons_stop isspace c s Hc) as (r & E).
  rewrite E. apply drop_while_stop, Hc.
Qed.

Lemma strip_app_ws_r s w :
  forallb isspace w = true -> strip (s ++ w) = strip s.
Proof.
  intros H. unfold strip, lstrip.
  destruct (drop_while_spec isspace s) as (lead & E & Hl & Hd).
  rewrite E at 1. rewrite <- app_assoc.
  rewrite drop_while_app_all by assumption.
  destruct Hd as [Hd | (c & r & Hd & Hc)].
  - rewrite Hd. simpl. rewrite drop_while_all by assumption. reflexivity.
  - rewrite Hd. simpl. rewrite Hc.
    change (c :: r ++ w) with ((c :: r) ++ w).
    apply rstrip_by_app_all, H.
Qed.

(** [strip] takes a run of whitespace off each end and leaves a string that
    is empty or has a character that is not whitespace at each end. *)
Lemma strip_spec s :
  exists lead trail,
    s = lead ++ strip s ++ trail
    /\ forallb isspace lead = true /\ forallb isspace trail = true
    /\ (strip s = [] \/
        exists c r, strip s = c :: r /\ isspace c = false).
Proof.
  unfold strip, lstrip, rstrip.
  destruct (drop_while_spec isspace s) as (lead & E & Hl & Hd).
  destruct (rstrip_by_spec isspace (drop_while isspace s))
    as (trail & E' & Ht & _).
  exists lead, trail. split; [|split; [|split]]; auto.
  - rewrite <- E'. exact E.
  - destruct Hd as [Hd | (c & r & Hd & Hc)].
    + left. rewrite Hd. reflexivity.
    + right. rewrite Hd.
      destruct (rstrip_by_cons_stop isspace c r Hc) as (r' & Hr).
      exists c, r'. auto.
Qed.

(** Stripping a text that starts outside whitespace only takes whitespace
    off its end. *)
Lemma strip_cons_shape c s :
  isspace c = false ->
  exists t trail,
    strip (c :: s) = c :: t /\ s = t ++ trail
    /\ forallb isspace trail = true.
Proof.
  intros Hc. destruct (strip_cons_stop c s Hc) as (t & Et).
  destruct (strip_spec (c :: s)) as (lead & trail & E & Hl & Ht & _).
  rewrite Et in E. destruct lead as [|l0 lead].
  - cbn [app] in E. injection E as E. exists t, trail. auto.
  - exfalso. cbn [app] in E. injection E as <- _.
    cbn [forallb] in Hl. rewrite Hc in Hl. discriminate.
Qed.

Lemma strip_idem s : strip (strip s) = strip s.
Proof.
  destruct (strip_spec s) as (lead & trail & E & Hl & Ht & Hd).
  destruct Hd as [Hd | (c & r & Hd & Hc)].
  - rewrite Hd. reflexivity.
  - unfold strip at 1. unfold strip at 1 in Hd.
    destruct (lstrip s) as [|x l] eqn:Hls; [discriminate Hd|].
    assert (Hx : isspace x = false).
    { destruct (drop_while_spec isspace s) as (ld & _ & _ & Hd').
      unfold lstrip in Hls. rewrite Hls in Hd'.
      destruct Hd' as [Hd' | (c' & r' & Hd' & Hc')]; [discriminate|].
      injection Hd' as -> _. exact Hc'. }
    unfold strip. rewrite Hls. rewrite lstrip_rstrip_stop by assumption.
    unfold rstrip.
    destruct (rstrip_by_spec isspace (x :: l)) as (tr & E' & Htr & Hd').
    destruct Hd' as [Hd' | (r' & c' & Hd' & Hc')].
    + rewrite Hd'. reflexivity.
    + rewrite Hd'. apply rstrip_by_snoc, Hc'.
Qed.

Lemma strip_all_ws s : forallb isspace s = true -> strip s = [].
Proof.
  intros H. unfold strip, lstrip. rewrite drop_while_all by assumption.
  reflexivity.
Qed.

Lemma strip_nil_all_ws s : strip s = [] -> forallb isspace s = true.
Proof.
  intros H. destruct (strip_spec s) as (lead & trail & E & Hl & Ht & _).
  rewrite H in E. rewrite E. simpl. rewrite forallb_app, Hl, Ht. reflexivity.
Qed.

(** ** The matcher and the language of a pattern *)

Lemma many_sound {A} p (K : str -> option A) s m a :
  many p K s = Some (m, a) ->
  forallb p m = true /\ exists r, s = m ++ r /\ K r = Some a.
Proof.
  revert m a. induction s as [|c s IH]; intros m a; simpl.
  - destruct (K []) eqn:HK; simpl; [|discriminate].
    intros [= <- <-]. split; [reflexivity|]. exists []. auto.
  - destruct (p c) eqn:Hc.
    + destruct (many p K s) as [[m' a']|] eqn:Hm.
      * intros [= <- <-]. destruct (IH _ _ eq_refl) as (Hall & r & E & HK).
        simpl. rewrite Hc, Hall. split; [reflexivity|].
        exists r. split; [f_equal; exact E|exact HK].
      * destruct (K (c :: s)) eqn:HK; simpl; [|discriminate].
        intros [= <- <-]. split; [reflexivity|]. exists (c :: s). auto.
    + destruct (K (c :: s)) eqn:HK; simpl; [|discriminate].
      intros [= <- <-]. split; [reflexivity|]. exists (c :: s). auto.
Qed.

Lemma many_here {A} p (K : str -> option A) s :
  K s <> None -> many p K s <> None.
Proof.
  intros HK. destruct s as [|c s]; simpl.
  - destruct (K []); [discriminate|congruence].
  - destruct (p c).
    + destruct (many p K s) as [[m a]|]; [discriminate|].
      destruct (K (c :: s)); [discriminate|congruence].
    + destruct (K (c :: s)); [discriminate|congruence].
Qed.

Lemma many_complete {A} p (K : str -> option A) m r :
  forallb p m = true -> K r <> None -> many p K (m ++ r) <> None.
Proof.
  intros Hm HK. induction m as [|c m IH]; simpl.
  - apply many_here, HK.
  - simpl in Hm. apply andb_true_iff in Hm. destruct Hm as [Hc Hm].
    rewrite Hc. specialize (IH Hm).
    destruct (many p K (m ++ r)) as [[m' a]|]; [discriminate|congruence].
Qed.

(** A successful match splits the text into the segments of the atoms and
    the rest. *)
Lemma match_atoms_sound atoms :
  forall s segs rest,
    match_atoms atoms s = Some (segs, rest) ->
    atoms_match atoms segs /\ s = concat segs ++ rest.
Proof.
  induction atoms as [|a k IH]; intros s segs rest; simpl.
  - intros [= <- <-]. split; [constructor|reflexivity].
  - destruct a as [p|p].
    + destruct s as [|c s]; [discriminate|].
      destruct (p c) eqn:Hc; [|discriminate].
      destruct (match_atoms k s) as [[segs' rest']|] eqn:Hk; [|discriminate].
      intros [= <- <-]. destruct (IH _ _ _ Hk) as [HF E].
      split; [constructor; [constructor; exact Hc|exact HF]|].
      simpl. f_equal. exact E.
    + destruct s as [|c s]; [discriminate|].
      destruct (p c) eqn:Hc; [|discriminate].
      destruct (many p (match_atoms k) s) as [[m [segs' rest']]|] eqn:Hm;
        [|discriminate].
      intros [= <- <-].
      destruct (many_sound _ _ _ _ _ Hm) as (Hall & r & E & Hk).
      destruct (IH _ _ _ Hk) as [HF E'].
      split; [constructor; [constructor; assumption|exact HF]|].
      simpl. f_equal. rewrite <- app_assoc, <- E'. exact E.
Qed.

(** Backtracking finds a match whenever the text starts with one. *)
Lemma match_atoms_complete atoms :
  forall segs rest,
    atoms_match atoms segs ->
    match_atoms atoms (concat segs ++ rest) <> None.
Proof.
  induction atoms as [|a k IH]; intros segs rest HF.
  - simpl. discriminate.
  - inversion HF as [|a' seg k' segs' Ha Hk]; subst. simpl concat.
    inversion Ha as [p c Hc|p c m Hc Hm]; subst; simpl.
    + rewrite Hc. specialize (IH _ rest Hk).
      destruct (match_atoms k (concat segs' ++ rest)) as [[? ?]|];
        [discriminate|congruence].
    + rewrite Hc. rewrite <- app_assoc.
      pose proof (many_complete p (match_atoms k) m (concat segs' ++ rest)
                    Hm (IH _ rest Hk)) as H.
      destruct (many p (match_atoms k) (m ++ concat segs' ++ rest))
        as [[? [? ?]]|]; [discriminate|congruence].
Qed.

Lemma match_alts_sound r s segs rest :
  match_alts r s = Some (segs, rest) ->
  s = concat segs ++ rest /\ exists atoms, In atoms r /\ atoms_match atoms segs.
Proof.
  induction r as [|a r IH]; simpl; [discriminate|].
  destruct (match_atoms a s) as [[segs' rest']|] eqn:Ha.
  - intros [= <- <-]. destruct (match_atoms_sound _ _ _ _ Ha) as [HF E].
    split; [exact E|]. exists a. auto.
  - intros H. destruct (IH H) as (E & atoms & Hin & HF).
    split; [exact E|]. exists atoms. auto.
Qed.

Lemma match_alts_iff r s :
  match_alts r s <> None <-> starts_with_match r s.
Proof.
  split.
  - destruct (match_alts r s) as [[segs rest]|] eqn:H; [|congruence].
    intros _. destruct (match_alts_sound _ _ _ _ H) as (E & atoms & Hin & HF).
    exists atoms, segs, rest. auto.
  - intros (atoms & segs & rest & Hin & HF & ->).
    induction r as [|a r IH]; [destruct Hin|]. simpl.
    destruct (match_atoms a (concat segs ++ rest)) as [x|] eqn:Ha;
      [discriminate|].
    destruct Hin as [-> | Hin]; [|apply IH, Hin].
    exfalso. revert Ha. apply match_atoms_complete, HF.
Qed.

(** [re.search] returns the leftmost position where a match starts. *)
Lemma search_from_some r s : forall i m,
  search_from r i s = Some m ->
  exists j rest,
    m_start m = i + j /\ j <= length s
    /\ match_alts r (skipn j s) = Some (m_segs m, rest)
    /\ forall k, k < j -> match_alts r (skipn k s) = None.
Proof.
  induction s as [|c s IH]; intros i m; simpl.
  - destruct (match_alts r []) as [[segs rest]|] eqn:H; [|discriminate].
    intros [= <-]. exists 0, rest. simpl.
    repeat split; [lia|lia|exact H|intros; lia].
  - destruct (match_alts r (c :: s)) as [[segs rest]|] eqn:H.
    + intros [= <-]. exists 0, rest. simpl.
      repeat split; [lia|lia|exact H|intros; lia].
    + intros Hs. destruct (IH _ _ Hs) as (j & rest & E & Hj & Hm & Hlt).
      exists (S j), rest. simpl.
      repeat split; [lia|lia|exact Hm|].
      intros [|k] Hk; simpl; [exact H|apply Hlt; lia].
Qed.

Lemma search_from_none r s : forall i,
  search_from r i s = None ->
  forall j, j <= length s -> match_alts r (skipn j s) = None.
Proof.
  induction s as [|c s IH]; intros i; simpl.
  - destruct (match_alts r []) as [[segs rest]|] eqn:H; [discriminate|].
    intros _ j Hj. replace j with 0 by lia. exact H.
  - destruct (match_alts r (c :: s)) as [[segs rest]|] eqn:H; [discriminate|].
    intros Hs [|j] Hj; simpl; [exact H|]. apply (IH _ Hs). lia.
Qed.

Lemma re_search_some r s m :
  re_search r s = Some m ->
  exists rest,
    m_start m <= length s
    /\ match_alts r (skipn (m_start m) s) = Some (m_segs m, rest)
    /\ forall k, k < m_start m -> match_alts r (skipn k s) = None.
Proof.
  intros H. destruct (search_from_some _ _ _ _ H) as (j & rest & E & Hj & Hm & Hlt).
  simpl in E. subst j. exists rest. auto.
Qed.

Lemma re_search_none r s :
  re_search r s = None ->
  forall j, j <= length s -> match_alts r (skipn j s) = None.
Proof. apply search_from_none. Qed.

(** The text splits around a match as [before ++ matched ++ after]. *)
Lemma re_search_split r s m :
  re_search r s = Some m ->
  s = firstn (m_start m) s ++ concat (m_segs m) ++ skipn (m_end m) s
  /\ exists atoms, In atoms r /\ atoms_match atoms (m_segs m).
Proof.
  intros H. destruct (re_search_some _ _ _ H) as (rest & Hle & Hm & _).
  destruct (match_alts_sound _ _ _ _ Hm) as (E & atoms & Hin & HF).
  split; [|exists atoms; auto].
  unfold m_end. rewrite Nat.add_comm, <- skipn_skipn.
  rewrite <- (firstn_skipn (m_start m) s) at 1. f_equal.
  rewrite E. rewrite skipn_app, Nat.sub_diag, skipn_all. reflexivity.
Qed.

(** Every match of a pattern whose alternatives have an atom consumes a
    character, so [re_split_aux] never runs out of steps: any number of
    steps above the length of the text gives the same pieces. *)
Lemma atoms_match_consumes atoms segs :
  atoms <> [] -> atoms_match atoms segs -> 1 <= length (concat segs).
Proof.
  intros Hne HF. destruct HF as [|a seg k segs' Ha Hk]; [congruence|].
  cbn [concat]. rewrite length_app.
  destruct Ha; cbn [length]; lia.
Qed.

Lemma re_search_consumes r s m :
  (forall atoms, In atoms r -> atoms <> []) ->
  re_search r s = Some m ->
  length (skipn (m_end m) s) < length s.
Proof.
  intros Hr Hs. destruct (re_search_split _ _ _ Hs) as (E & atoms & Hin & HF).
  pose proof (atoms_match_consumes _ _ (Hr _ Hin) HF) as Hc.
  rewrite E at 2. rewrite !length_app. lia.
Qed.

Lemma re_split_aux_fuel r :
  (forall atoms, In atoms r -> atoms <> []) ->
  forall fuel n s limit,
    length s < fuel -> length s < n ->
    re_split_aux fuel r limit s = re_split_aux n r limit s.
Proof.
  intros Hr. induction fuel as [|fuel IH]; intros n s limit Hf Hn; [lia|].
  destruct n as [|n]; [lia|]. cbn [re_split_aux].
  destruct (re_search r s) as [m|] eqn:Hs.
  - pose proof (re_search_consumes _ _ _ Hr Hs) as Hc.
    destruct limit as [[|k]|]; [reflexivity| |];
      (f_equal; apply IH; lia).
  - reflexivity.
Qed.

(** ** Indexing and splitting *)

Lemma getitem_0 {A} (x : A) l : getitem (x :: l) 0 = ret x.
Proof. reflexivity. Qed.

Lemma last_cons_default {A} (a x y : A) l :
  last (a :: l) x = last (a :: l) y.
Proof.
  revert a. induction l as [|b l IH]; intros a; [reflexivity|].
  change (last (b :: l) x = last (b :: l) y). apply IH.
Qed.

Lemma getitem_last {A} (x : A) l : getitem (x :: l) (-1) = ret (last l x).
Proof.
  unfold getitem. change (-1 <? 0)%Z with true. cbv iota.
  replace (-1 + Z.of_nat (length (x :: l)))%Z with (Z.of_nat (length l))
    by (simpl length; lia).
  destruct (Z.ltb_spec (Z.of_nat (length l)) 0); [lia|].
  rewrite Nat2Z.id. clear.
  revert x. induction l as [|y l IH]; intros x; [reflexivity|].
  simpl length. simpl nth_error. rewrite (IH y).
  destruct l as [|a l]; [reflexivity|].
  f_equal. rewrite (last_cons_default a y x). reflexivity.
Qed.

Lemma re_split_unlimited r s :
  re_split r 0 s =
  match re_search r s with
  | None => [s]
  | Some m =>
      firstn (m_start m) s
      :: re_split_aux (length s) r None (skipn (m_end m) s)
  end.
Proof. reflexivity. Qed.

Lemma re_split_once r s :
  re_split r 1 s =
  match re_search r s with
  | None => [s]
  | Some m => [firstn (m_start m) s; skipn (m_end m) s]
  end.
Proof.
  unfold re_split. simpl. destruct (re_search r s) as [m|]; [|reflexivity].
  destruct (length s); reflexivity.
Qed.

(** ** The value of [title_venue] *)

Lemma title_venue_eq s : title_venue s = ret (title_venue_value s).
Proof.
  unfold title_venue, title_venue_value.
  destruct (re_search in_re s) as [m|]; [reflexivity|].
  rewrite re_split_once.
  destruct (re_search sentence_re s) as [m|]; reflexivity.
Qed.

(** The clean-up of lines 72-73 changes no title: [rstrip('.')] is applied
    only to a title that has no trailing period. *)
Lemma rstrip_by_no_trailing p s :
  match rev s with [] => True | c :: _ => p c = false end ->
  rstrip_by p s = s.
Proof.
  unfold rstrip_by. destruct (rev s) as [|c r] eqn:E; intros H.
  - simpl. apply (f_equal (@rev ascii)) in E. rewrite rev_involutive in E.
    rewrite E. reflexivity.
  - simpl. rewrite H. rewrite <- E. apply rev_involutive.
Qed.

Lemma clean_title_id t : clean_title t = t.
Proof.
  unfold clean_title.
  destruct (truthy t && negb (endswith t (lit "."))) eqn:H; [|reflexivity].
  apply andb_true_iff in H. destruct H as [_ H].
  apply negb_true_iff in H. unfold endswith in H. simpl in H.
  apply rstrip_by_no_trailing.
  destruct (rev t) as [|c r]; [exact I|].
  unfold in_chars. simpl. rewrite orb_false_r.
  rewrite andb_true_r in H. rewrite Ascii.eqb_sym. exact H.
Qed.

(** ** The author separator *)

Lemma author_sep_here s :
  match_alts author_sep_re s <> None <-> at_author_sep s = true.
Proof.
  rewrite match_alts_iff. split.
  - intros (atoms & segs & rest & Hin & HF & ->).
    destruct Hin as [<- | [<- | []]]; inv_atoms.
    + reflexivity.
    + match goal with
      | |- at_author_sep (concat [?x :: ?w; _; _; _; ?y :: _] ++ _) = true =>
          assert (Hx : isspace x = true) by assumption;
          assert (Hw : forallb isspace w = true) by assumption;
          assert (Hy : isspace y = true) by assumption
      end.
      simpl concat. simpl app. unfold at_author_sep.
      apply orb_true_iff. right. unfold at_word_and, lstrip.
      rewrite Hx. simpl drop_while. rewrite Hx.
      rewrite <- app_assoc. rewrite drop_while_app_all by assumption.
      simpl. rewrite Hy. reflexivity.
  - unfold at_author_sep. destruct s as [|c s]; [discriminate|].
    intros H. apply orb_true_iff in H. destruct H as [H | H].
    + apply is_char_true in H. subst c.
      exists [One (is_char ",")], [[","%char]], s.
      split; [left; reflexivity|]. split; [|reflexivity].
      repeat constructor.
    + unfold at_word_and in H. apply andb_true_iff in H.
      destruct H as [Hc H]. unfold lstrip in H.
      destruct (drop_while_spec isspace (c :: s)) as (lead & E & Hl & _).
      destruct (drop_while isspace (c :: s)) as [|a [|n [|d [|c' r]]]];
        try discriminate H.
      repeat (apply andb_true_iff in H; destruct H as [H ?]).
      apply is_char_true in H. apply is_char_true in H1.
      apply is_char_true in H2. subst a n d.
      destruct lead as [|l0 lead].
      { simpl in E. injection E as -> _. discriminate Hc. }
      simpl in Hl. apply andb_true_iff in Hl. destruct Hl as [Hl0 Hl].
      exists [Many1 isspace; One (is_char "a"); One (is_char "n");
              One (is_char "d"); Many1 isspace],
        [l0 :: lead; ["a"%char]; ["n"%char]; ["d"%char]; [c']], r.
      split; [right; left; reflexivity|]. split.
      * repeat constructor; assumption.
      * rewrite E. simpl. rewrite <- app_assoc. reflexivity.
Qed.

(** ** The first author, as the specification words it *)

Lemma search_from_cons r i c s :
  search_from r i (c :: s) =
  match match_alts r (c :: s) with
  | Some (segs, _) => Some (mk_rmatch i segs)
  | None => search_from r (S i) s
  end.
Proof. reflexivity. Qed.

Lemma spec_first_segment_cons c s :
  spec_first_segment (c :: s) =
  if at_author_sep (c :: s) then [] else c :: spec_first_segment s.
Proof. reflexivity. Qed.

Lemma search_author_sep s : forall i,
  match search_from author_sep_re i s with
  | Some m => firstn (m_start m - i) s
  | None => s
  end = spec_first_segment s.
Proof.
  induction s as [|c s IH]; intros i.
  - reflexivity.
  - rewrite search_from_cons, spec_first_segment_cons.
    pose proof (author_sep_here (c :: s)) as Hh.
    destruct (match_alts author_sep_re (c :: s)) as [[segs rest]|].
    + replace (at_author_sep (c :: s)) with true
        by (symmetry; apply Hh; discriminate).
      cbn [m_start]. rewrite Nat.sub_diag. reflexivity.
    + destruct (at_author_sep (c :: s)).
      * exfalso. apply (proj2 Hh); reflexivity.
      * specialize (IH (S i)).
        destruct (search_from author_sep_re (S i) s) as [m|] eqn:Hs.
        -- destruct (search_from_some _ _ _ _ Hs) as (j & _ & E & _).
           replace (m_start m - i) with (S (m_start m - S i)) by lia.
           simpl. f_equal. exact IH.
        -- f_equal. exact IH.
Qed.

Lemma split_ws_lstrip s : split_ws (lstrip s) = split_ws s.
Proof.
  unfold lstrip. induction s as [|c s IH]; [reflexivity|].
  simpl. destruct (isspace c) eqn:Hc; [exact IH|].
  simpl. rewrite Hc. reflexivity.
Qed.

Lemma split_ws_all_ws w : forallb isspace w = true -> split_ws w = [].
Proof.
  induction w as [|c w IH]; [reflexivity|]. simpl. intros H.
  apply andb_true_iff in H. destruct H as [Hc Hw]. rewrite Hc. auto.
Qed.

Lemma split_ws_app_ws s w :
  forallb isspace w = true -> split_ws (s ++ w) = split_ws s.
Proof.
  intros Hw. induction s as [|c s IH].
  - simpl. apply split_ws_all_ws, Hw.
  - simpl. destruct (isspace c) eqn:Hc; [exact IH|].
    destruct s as [|c' s].
    + simpl. destruct w as [|x w]; [reflexivity|].
      simpl in Hw. apply andb_true_iff in Hw. destruct Hw as [Hx Hw].
      rewrite Hx. simpl. rewrite Hx.
      rewrite split_ws_all_ws by assumption. reflexivity.
    + change ((c' :: s) ++ w) with (c' :: s ++ w) in *.
      cbv iota. rewrite IH. reflexivity.
Qed.

Lemma split_ws_strip s : split_ws (strip s) = split_ws s.
Proof.
  rewrite <- (split_ws_lstrip s). unfold strip, rstrip.
  destruct (rstrip_by_spec isspace (lstrip s)) as (trail & E & Ht & _).
  rewrite E at 2. rewrite split_ws_app_ws by assumption. reflexivity.
Qed.

(** [first_author] raises nothing, prints nothing and returns the last name
    as the specification derives it. *)
Lemma first_author_eq a : first_author a = ret (spec_first_author_last a).
Proof.
  unfold first_author, spec_first_author_last, spec_last_name.
  assert (E : exists l,
    re_split author_sep_re 0 a = spec_first_segment a :: l).
  { rewrite re_split_unlimited.
    pose proof (search_author_sep a 0) as H. unfold re_search.
    destruct (search_from author_sep_re 0 a) as [m|].
    - rewrite Nat.sub_0_r in H. rewrite H. eexists. reflexivity.
    - exists []. f_equal. exact H. }
  destruct E as (l & ->). rewrite getitem_0. unfold ret at 1, bind.
  rewrite split_ws_strip.
  destruct (split_ws (spec_first_segment a)) as [|t [|t' ts]].
  - reflexivity.
  - reflexivity.
  - change (2 <=? length (t :: t' :: ts)) with true. cbv iota.
    rewrite getitem_last. reflexivity.
Qed.

(** ** The year delimiter *)

Lemma year_atoms_inv segs :
  atoms_match
    [One (is_char "."); Many1 isspace;
     One isdecimal; One isdecimal; One isdecimal; One isdecimal;
     One (is_char "."); Many1 isspace] segs ->
  exists w1 ws1 d1 d2 d3 d4 w2 ws2,
    segs = [["."%char]; w1 :: ws1; [d1]; [d2]; [d3]; [d4]; ["."%char];
            w2 :: ws2]
    /\ isspace w1 = true /\ forallb isspace ws1 = true
    /\ isdecimal d1 = true /\ isdecimal d2 = true
    /\ isdecimal d3 = true /\ isdecimal d4 = true
    /\ isspace w2 = true /\ forallb isspace ws2 = true.
Proof.
  intros H. inv_atoms.
  match goal with
  | |- exists _ _ _ _ _ _ _ _,
        [_; ?a :: ?b; [?c]; [?d]; [?e]; [?f]; _; ?g :: ?h] = _ /\ _ =>
      exists a, b, c, d, e, f, g, h
  end.
  repeat split; assumption.
Qed.

Lemma year_match_inv s segs rest :
  match_alts year_re s = Some (segs, rest) ->
  exists w1 ws1 d1 d2 d3 d4 w2 ws2,
    segs = [["."%char]; w1 :: ws1; [d1]; [d2]; [d3]; [d4]; ["."%char];
            w2 :: ws2]
    /\ s = "."%char :: (w1 :: ws1) ++ [d1; d2; d3; d4]
             ++ "."%char :: (w2 :: ws2) ++ rest
    /\ isspace w1 = true /\ forallb isspace ws1 = true
    /\ isdecimal d1 = true /\ isdecimal d2 = true
    /\ isdecimal d3 = true /\ isdecimal d4 = true
    /\ isspace w2 = true /\ forallb isspace ws2 = true.
Proof.
  intros H. destruct (match_alts_sound _ _ _ _ H) as (E & atoms & Hin & HF).
  destruct Hin as [<- | []].
  destruct (year_atoms_inv _ HF)
    as (w1 & ws1 & d1 & d2 & d3 & d4 & w2 & ws2 & -> & Hrest).
  exists w1, ws1, d1, d2, d3, d4, w2, ws2.
  split; [reflexivity|]. split; [|exact Hrest].
  rewrite E. simpl. rewrite <- !app_assoc. simpl. rewrite <- !app_assoc.
  reflexivity.
Qed.

Lemma year_prefix_match s :
  year_delim_prefix s <-> match_alts year_re s <> None.
Proof.
  split.
  - intros (ws1 & d & ws2 & post & -> & N1 & H1 & Hd & Hdd & N2 & H2).
    apply match_alts_iff.
    destruct ws1 as [|w1 ws1]; [congruence|].
    destruct ws2 as [|w2 ws2]; [congruence|].
    destruct d as [|d1 [|d2 [|d3 [|d4 [|? ?]]]]]; try discriminate Hd.
    simpl in H1, H2, Hdd.
    repeat (apply andb_true_iff in H1; destruct H1 as [? H1]).
    repeat (apply andb_true_iff in H2; destruct H2 as [? H2]).
    repeat (apply andb_true_iff in Hdd; destruct Hdd as [? Hdd]).
    eexists _, [["."%char]; w1 :: ws1; [d1]; [d2]; [d3]; [d4]; ["."%char];
                w2 :: ws2], post.
    split; [left; reflexivity|]. split.
    + repeat constructor; assumption.
    + simpl. rewrite <- !app_assoc. simpl. rewrite <- !app_assoc.
      reflexivity.
  - destruct (match_alts year_re s) as [[segs rest]|] eqn:H; [|congruence].
    intros _.
    destruct (year_match_inv _ _ _ H)
      as (w1 & ws1 & d1 & d2 & d3 & d4 & w2 & ws2 & _ & E & ? & ? & ? & ?
          & ? & ? & ? & ?).
    exists (w1 :: ws1), [d1; d2; d3; d4], (w2 :: ws2), rest.
    split; [exact E|].
    simpl. repeat split; try discriminate; bool_facts.
Qed.

Lemma year_delim_here_cons dot w r :
  year_delim_here (dot :: w :: r) =
  is_char "." dot && isspace w
  && match lstrip (w :: r) with
     | d1 :: d2 :: d3 :: d4 :: dot' :: w' :: _ =>
         isdecimal d1 && isdecimal d2 && isdecimal d3 && isdecimal d4
         && is_char "." dot' && isspace w'
     | _ => false
     end.
Proof. reflexivity. Qed.

Lemma year_here_prefix s :
  year_delim_here s = true <-> year_delim_prefix s.
Proof.
  split.
  - unfold year_delim_here. destruct s as [|dot [|w r]]; try discriminate.
    intros H. repeat (apply andb_true_iff in H; destruct H as [H ?]).
    apply is_char_true in H. subst dot.
    unfold lstrip in *.
    destruct (drop_while_spec isspace (w :: r)) as (lead & E & Hl & _).
    destruct (drop_while isspace (w :: r))
      as [|d1 [|d2 [|d3 [|d4 [|dot' [|w' post]]]]]]; try discriminate.
    repeat match goal with
           | H : _ && _ = true |- _ =>
               apply andb_true_iff in H; destruct H
           end.
    match goal with
    | H : is_char _ dot' = true |- _ => apply is_char_true in H; subst dot'
    end.
    exists lead, [d1; d2; d3; d4], [w'], post.
    split; [rewrite E; reflexivity|].
    assert (lead <> []).
    { intros ->. simpl in E. injection E as -> _.
      assert (isspace d1 = false) by (apply decimal_not_space; assumption).
      congruence. }
    simpl. repeat split; try assumption; try discriminate; bool_facts.
  - intros (ws1 & d & ws2 & post & -> & N1 & H1 & Hd & Hdd & N2 & H2).
    destruct ws1 as [|w1 ws1]; [congruence|].
    destruct ws2 as [|w2 ws2]; [congruence|].
    destruct d as [|d1 [|d2 [|d3 [|d4 [|? ?]]]]]; try discriminate Hd.
    simpl in H1, H2, Hdd.
    apply andb_true_iff in H1. destruct H1 as [Hw1 H1].
    apply andb_true_iff in H2. destruct H2 as [Hw2 H2].
    repeat (apply andb_true_iff in Hdd; destruct Hdd as [? Hdd]).
    simpl app. rewrite year_delim_here_cons.
    change (is_char "." "."%char) with true. rewrite Hw1. simpl andb.
    change (w1 :: ws1 ++ d1 :: d2 :: d3 :: d4 :: "."%char :: w2 :: ws2 ++ post)
      with ((w1 :: ws1) ++ d1 :: d2 :: d3 :: d4 :: "."%char :: w2 :: ws2 ++ post).
    unfold lstrip. rewrite drop_while_app_all
      by (simpl; rewrite Hw1; assumption).
    rewrite drop_while_stop by (apply decimal_not_space; assumption).
    change (is_char "." "."%char) with true. bool_facts.
Qed.

(** [re.search] finds the year delimiter exactly in the strings that
    contain it. *)
Lemma search_year_contains s :
  re_search year_re s <> None <-> contains_year_delim s.
Proof.
  split.
  - destruct (re_search year_re s) as [m|] eqn:H; [|congruence]. intros _.
    destruct (re_search_some _ _ _ H) as (rest & Hle & Hm & _).
    exists (firstn (m_start m) s), (skipn (m_start m) s).
    split; [symmetry; apply firstn_skipn|].
    apply year_prefix_match. congruence.
  - intros (pre & post & -> & Hp). intros Hn.
    apply year_prefix_match in Hp. apply Hp.
    pose proof (re_search_none _ _ Hn (length pre)) as H.
    rewrite skipn_app, Nat.sub_diag, skipn_all in H. simpl in H.
    apply H. rewrite length_app. lia.
Qed.

(** ** The value of [parse_reference] *)

Lemma py_int_digits d1 d2 d3 d4 :
  isdecimal d1 = true -> isdecimal d2 = true ->
  isdecimal d3 = true -> isdecimal d4 = true ->
  py_int [d1; d2; d3; d4] = ret (decimal_value [d1; d2; d3; d4]).
Proof.
  intros H1 H2 H3 H4. unfold py_int. simpl. rewrite H1, H2, H3, H4.
  reflexivity.
Qed.

Lemma parse_reference_blank b :
  strip b = [] -> parse_reference b = ret None.
Proof. intros H. unfold parse_reference. rewrite H. reflexivity. Qed.

Lemma parse_reference_no_year b :
  strip b <> [] -> re_search year_re (strip b) = None ->
  parse_reference b = (Ok None, [warning (strip b)]).
Proof.
  intros Hn Hs. unfold parse_reference. rewrite Hs.
  destruct (strip b); [congruence|]. reflexivity.
Qed.

Lemma parse_reference_found b m :
  re_search year_re (strip b) = Some m ->
  parse_reference b = ret (Some (parsed_value (strip b) m)).
Proof.
  intros Hs. unfold parse_reference. rewrite Hs.
  destruct (re_search_some _ _ _ Hs) as (rest & Hle & Hm & _).
  destruct (year_match_inv _ _ _ Hm)
    as (w1 & ws1 & d1 & d2 & d3 & d4 & w2 & ws2 & Hsegs & E & ? & ? & ? & ?
        & ? & ? & ? & ?).
  destruct (strip b) as [|c0 s0] eqn:Hb.
  { destruct (m_start m); discriminate E. }
  cbn [truthy negb].
  unfold parsed_value, m_group. rewrite Hsegs. cbn [skipn firstn concat app].
  rewrite py_int_digits by assumption.
  rewrite first_author_eq, title_venue_eq. reflexivity.
Qed.

(** [parse_reference] in all cases. *)
Lemma parse_reference_cases b :
  (strip b = [] /\ parse_reference b = ret None)
  \/ (strip b <> [] /\ re_search year_re (strip b) = None
      /\ parse_reference b = (Ok None, [warning (strip b)]))
  \/ (exists m, strip b <> [] /\ re_search year_re (strip b) = Some m
      /\ parse_reference b = ret (Some (parsed_value (strip b) m))).
Proof.
  destruct (strip b) as [|c0 s0] eqn:Hb.
  - left. split; [reflexivity|]. apply parse_reference_blank, Hb.
  - right. destruct (re_search year_re (strip b)) as [m|] eqn:Hs.
    + right. exists m. rewrite <- Hb. split; [rewrite Hb; discriminate|].
      split; [exact Hs|]. apply parse_reference_found, Hs.
    + left. rewrite <- Hb. split; [rewrite Hb; discriminate|].
      split; [exact Hs|]. apply parse_reference_no_year; [|exact Hs].
      rewrite Hb. discriminate.
Qed.

Lemma parse_all_eq raw_refs : forall acc,
  parse_all raw_refs acc = (Ok (acc ++ parsed_of raw_refs),
                            warnings_of raw_refs).
Proof.
  induction raw_refs as [|b l IH]; intros acc.
  - simpl. rewrite app_nil_r. reflexivity.
  - unfold parsed_of, warnings_of. cbn [parse_all flat_map].
    fold (parsed_of l). fold (warnings_of l).
    destruct (parse_reference_cases b)
      as [[_ ->] | [(_ & _ & ->) | (m & _ & _ & ->)]];
      unfold ret, bind, outcome, printed; cbn [fst snd];
      rewrite IH; try reflexivity.
    rewrite <- app_assoc. reflexivity.
Qed.

Lemma parsed_of_app l1 l2 : parsed_of (l1 ++ l2) = parsed_of l1 ++ parsed_of l2.
Proof. apply flat_map_app. Qed.

Lemma warnings_of_app l1 l2 :
  warnings_of (l1 ++ l2) = warnings_of l1 ++ warnings_of l2.
Proof. apply flat_map_app. Qed.

(** [main] raises nothing: it returns the parsed references sorted and the
    page made of them, and prints the warnings and two more lines. *)
Lemma main_eq content :
  main content =
  let sorted :=
    sort_refs (parsed_of (split_sep (newline ++ newline) content)) in
  (Ok (sorted, join newline (html_lines sorted)),
   warnings_of (split_sep (newline ++ newline) content)
     ++ [lit "Successfully parsed " ++ str_of_Z (Z.of_nat (length sorted))
           ++ lit " references.";
         lit "Output written to out.html"]).
Proof.
  unfold main. rewrite parse_all_eq. reflexivity.
Qed.

(** ** Blocks without a reference *)

(** C8: a block that is empty or made of whitespace only yields no
    reference and no warning: [parse_reference] returns [None] and prints
    nothing, and [main] returns and prints what it does for the other
    blocks alone. *)
Theorem blank_block_skipped (block : str) :
  forallb isspace block = true ->
  parse_reference block = (Ok None, [])
  /\ (forall before after,
        parse_all (before ++ block :: after) [] =
        (Ok (parsed_of before ++ parsed_of after),
         warnings_of before ++ warnings_of after))
  /\ (forall content before after,
        split_sep (newline ++ newline) content = before ++ block :: after ->
        exists html summary,
          main content =
          (Ok (sort_refs (parsed_of before ++ parsed_of after), html),
           warnings_of before ++ warnings_of after
             ++ [summary; lit "Output written to out.html"])).
Proof.
  intros H. apply strip_all_ws in H.
  pose proof (parse_reference_blank _ H) as E.
  assert (Ep : parsed_of [block] = []).
  { unfold parsed_of. cbn [flat_map]. rewrite E. reflexivity. }
  assert (Ew : warnings_of [block] = []).
  { unfold warnings_of. cbn [flat_map]. rewrite E. reflexivity. }
  split; [exact E|]. split.
  - intros before after. rewrite parse_all_eq.
    change (block :: after) with ([block] ++ after).
    rewrite !parsed_of_app, !warnings_of_app, Ep, Ew. reflexivity.
  - intros content before after Hsplit. rewrite main_eq, Hsplit.
    change (block :: after) with ([block] ++ after).
    rewrite !parsed_of_app, !warnings_of_app, Ep, Ew. cbn zeta. cbn [app].
    rewrite <- app_assoc. do 2 eexists. reflexivity.
Qed.

Lemma blank_block_skipped_witness :
  forallb isspace (lit "  ") = true
  /\ parse_reference (lit "  ") = (Ok None, []).
Proof.
  split; [reflexivity|].
  refine (proj1 (blank_block_skipped (lit "  ") _)). reflexivity.
Defined.

(** C7: a block that is not blank but has no year delimiter yields no
    reference and exactly one printed line, the warning with the first 100
    characters of the stripped block; [main] raises nothing, returns the
    references of the other blocks and prints that one line between the
    lines of the blocks before and after. *)
Theorem no_year_block_warned (block : str) :
  strip block <> [] ->
  ~ contains_year_delim (strip block) ->
  parse_reference block =
    (Ok None,
     [lit "Warning: Could not find year in: "
        ++ firstn 100 (strip block) ++ lit "..."])
  /\ (forall before after,
        parse_all (before ++ block :: after) [] =
        (Ok (parsed_of before ++ parsed_of after),
         warnings_of before
           ++ [lit "Warning: Could not find year in: "
                 ++ firstn 100 (strip block) ++ lit "..."]
           ++ warnings_of after))
  /\ (forall content before after,
        split_sep (newline ++ newline) content = before ++ block :: after ->
        exists html summary,
          main content =
          (Ok (sort_refs (parsed_of before ++ parsed_of after), html),
           warnings_of before
             ++ [lit "Warning: Could not find year in: "
                   ++ firstn 100 (strip block) ++ lit "..."]
             ++ warnings_of after
             ++ [summary; lit "Output written to out.html"])).
Proof.
  intros Hne Hno.
  assert (Hs : re_search year_re (strip block) = None).
  { destruct (re_search year_re (strip block)) eqn:E; [|reflexivity].
    exfalso. apply Hno, search_year_contains. congruence. }
  pose proof (parse_reference_no_year _ Hne Hs) as E.
  assert (Ep : parsed_of [block] = []).
  { unfold parsed_of. cbn [flat_map]. rewrite E. reflexivity. }
  assert (Ew : warnings_of [block] = [warning (strip block)]).
  { unfold warnings_of. cbn [flat_map]. rewrite E. reflexivity. }
  split; [exact E|]. split.
  - intros before after. rewrite parse_all_eq.
    change (block :: after) with ([block] ++ after).
    rewrite !parsed_of_app, !warnings_of_app, Ep, Ew. reflexivity.
  - intros content before after Hsplit. rewrite main_eq, Hsplit.
    change (block :: after) with ([block] ++ after).
    rewrite !parsed_of_app, !warnings_of_app, Ep, Ew. cbn zeta. cbn [app].
    rewrite <- !app_assoc. do 2 eexists. reflexivity.
Qed.

Lemma no_year_block_warned_witness :
  strip (lit " See the appendix for details. ") <> []
  /\ parse_reference (lit " See the appendix for details. ") =
    (Ok None,
     [lit "Warning: Could not find year in: See the appendix for details...."]).
Proof.
  split; [vm_compute; discriminate|].
  refine (proj1 (no_year_block_warned
                   (lit " See the appendix for details. ") _ _)).
  - vm_compute. discriminate.
  - intros H. apply search_year_contains in H. apply H.
    vm_compute. reflexivity.
Defined.

(** ** Totality *)

Lemma digit_value_range c :
  isdecimal c = true -> (0 <= digit_value c <= 9)%Z.
Proof.
  unfold isdecimal, digit_value. cbv zeta. intros H.
  apply andb_true_iff in H. destruct H as [H1 H2].
  apply Nat.leb_le in H1. apply Nat.leb_le in H2. lia.
Qed.

Lemma decimal_value_4 d1 d2 d3 d4 :
  decimal_value [d1; d2; d3; d4] =
  (digit_value d1 * 1000 + digit_value d2 * 100
   + digit_value d3 * 10 + digit_value d4)%Z.
Proof. unfold decimal_value. simpl. lia. Qed.

(** C9: [parse_reference] raises no exception on any string: its outcome is
    [None] or a complete tuple, whose year is the value of four digits. *)
Theorem parse_reference_total (ref_text : str) :
  exists v : option reference,
    outcome (parse_reference ref_text) = Ok v
    /\ forall r, v = Some r -> (0 <= year r <= 9999)%Z.
Proof.
  destruct (parse_reference_cases ref_text)
    as [[_ ->] | [(_ & _ & ->) | (m & _ & Hs & ->)]].
  - exists None. split; [reflexivity|discriminate].
  - exists None. split; [reflexivity|discriminate].
  - eexists. split; [reflexivity|]. intros r [= <-].
    destruct (re_search_some _ _ _ Hs) as (rest & _ & Hm & _).
    destruct (year_match_inv _ _ _ Hm)
      as (w1 & ws1 & d1 & d2 & d3 & d4 & w2 & ws2 & Hsegs & _ & _ & _
          & H1 & H2 & H3 & H4 & _).
    unfold parsed_value, m_group. cbn [year]. rewrite Hsegs.
    cbn [skipn firstn concat app]. rewrite decimal_value_4.
    apply digit_value_range in H1, H2, H3, H4. lia.
Qed.

(** C3: [parse_reference] returns a reference exactly for the blocks whose
    stripped text is not empty and contains the year delimiter (a period,
    whitespace, four digits, a period, whitespace); for every other block
    it returns [None], so no incomplete record exists. *)
Theorem reference_iff_year_delimiter (block : str) :
  ((exists r, outcome (parse_reference block) = Ok (Some r))
   <-> strip block <> [] /\ contains_year_delim (strip block))
  /\ (~ (strip block <> [] /\ contains_year_delim (strip block))
      -> outcome (parse_reference block) = Ok None).
Proof.
  destruct (parse_reference_cases block)
    as [[Hb ->] | [(Hb & Hs & ->) | (m & Hb & Hs & ->)]];
    unfold ret, outcome; cbn [fst].
  - split; [|reflexivity]. split.
    + intros (r & [=]).
    + intros [H _]. congruence.
  - split; [|reflexivity]. split.
    + intros (r & [=]).
    + intros [_ H]. apply search_year_contains in H. congruence.
  - split.
    + split; [|eauto]. intros _. split; [exact Hb|].
      apply search_year_contains. congruence.
    + intros H. exfalso. apply H. split; [exact Hb|].
      apply search_year_contains. congruence.
Qed.

(** ** The title clean-up and the venue *)

(** C1: the clean-up of lines 72-73 strips no period.  The block of
    scenario 2 keeps the period of its title, a title written with two
    periods at the end of a block keeps both, and [clean_title] returns
    every title unchanged. *)
Theorem title_period_not_stripped :
  outcome (parse_reference (lit "A. B. Lastname. 1999. Some Title.")) =
    Ok (Some (mk_reference (lit "Lastname") 1999 (lit "A. B. Lastname")
                (lit "Some Title.") []))
  /\ outcome (parse_reference (lit "X Y. 2020. Title..")) =
    Ok (Some (mk_reference (lit "Y") 2020 (lit "X Y") (lit "Title..") []))
  /\ forall t, clean_title t = t.
Proof.
  split; [vm_compute; reflexivity|].
  split; [vm_compute; reflexivity|].
  exact clean_title_id.
Qed.

Lemma in_match_inv s segs rest :
  match_alts in_re s = Some (segs, rest) ->
  exists w1 ws1 w2 ws2,
    s = "."%char :: (w1 :: ws1) ++ "I"%char :: "n"%char :: (w2 :: ws2) ++ rest
    /\ length (concat segs) = 1 + length (w1 :: ws1) + 2 + length (w2 :: ws2)
    /\ isspace w1 = true /\ forallb isspace ws1 = true
    /\ isspace w2 = true /\ forallb isspace ws2 = true.
Proof.
  intros H. destruct (match_alts_sound _ _ _ _ H) as (E & atoms & Hin & HF).
  destruct Hin as [<- | []]. inv_atoms.
  match goal with
  | |- exists _ _ _ _,
        concat [_; ?a :: ?b; _; _; ?c :: ?d] ++ _ = _ /\ _ =>
      exists a, b, c, d
  end.
  split; [|split; [|repeat split; assumption]].
  - cbn [concat app]. rewrite app_nil_r.
    repeat (rewrite <- app_assoc; cbn [app]). reflexivity.
  - cbn [concat app length]. rewrite ?length_app. cbn [length].
    rewrite ?length_app. cbn [length]. lia.
Qed.

(** The venue of the [In] branch starts with [In]: the slice begins after
    the period of the match, and stripping removes the whitespace before
    [In]. *)
Lemma in_venue_after_period after_year in_match :
  re_search in_re after_year = Some in_match ->
  (exists w rest,
     skipn (m_start in_match) after_year = "."%char :: w :: rest
     /\ isspace w = true)
  /\ exists v,
       strip (skipn (m_start in_match + 1) after_year)
       = "I"%char :: "n"%char :: v.
Proof.
  intros Hin.
  destruct (re_search_some _ _ _ Hin) as (rest & _ & Hm & _).
  destruct (in_match_inv _ _ _ Hm)
    as (w1 & ws1 & w2 & ws2 & E & _ & Hw1 & Hws1 & _).
  split; [rewrite E; cbn [app]; eauto|].
  rewrite Nat.add_comm, <- skipn_skipn, E. cbn [skipn].
  rewrite strip_app_ws_l by (cbn [forallb]; rewrite Hw1; exact Hws1).
  destruct (strip_cons_shape "I"%char ("n"%char :: (w2 :: ws2) ++ rest)
              eq_refl) as (t & trail & -> & Et & Htrail).
  destruct t as [|x t].
  - exfalso. cbn [app] in Et. rewrite <- Et in Htrail.
    cbn [forallb] in Htrail. discriminate Htrail.
  - cbn [app] in Et. injection Et as <- _. eauto.
Qed.

(** C2, as the claim states it, fails on the block of scenario 1: no
    parsed tuple has the last name, year and title of the scenario and a
    venue that starts with the period before [In]. *)
Lemma scenario_1_venue_has_no_period :
  ~ (exists r,
       outcome
         (parse_reference
            (lit "Jane Doe and John Smith. 2020. A Study of Things. In Proceedings of Foo."))
       = Ok (Some r)
       /\ first_author_last r = lit "Doe"
       /\ year r = 2020%Z
       /\ title r = lit "A Study of Things"
       /\ startswith (lit ". In Proceedings of Foo.") (venue r) = true).
Proof.
  intros (r & H & _ & _ & _ & Hv).
  vm_compute in H. injection H as <-. vm_compute in Hv. discriminate Hv.
Qed.

(** C2, amended: on the block of scenario 1 the last name is [Doe], the
    year 2020, the title [A Study of Things] and the venue
    [In Proceedings of Foo.]; and whenever the text after the year has the
    [In] pattern, the match starts at a period followed by whitespace, the
    title is the stripped text before the match, and the venue is the
    stripped text from one character after the start of the match, which
    starts with [In] and so leaves out the period before it. *)
Theorem scenario_1_venue_after_period :
  parse_reference
    (lit "Jane Doe and John Smith. 2020. A Study of Things. In Proceedings of Foo.") =
  (Ok (Some (mk_reference (lit "Doe") 2020 (lit "Jane Doe and John Smith")
               (lit "A Study of Things") (lit "In Proceedings of Foo."))),
   [])
  /\ forall after_year in_match,
       re_search in_re after_year = Some in_match ->
       title_venue after_year =
         ret (strip (firstn (m_start in_match) after_year),
              strip (skipn (m_start in_match + 1) after_year))
       /\ (exists w rest,
             skipn (m_start in_match) after_year = "."%char :: w :: rest
             /\ isspace w = true)
       /\ exists v,
            strip (skipn (m_start in_match + 1) after_year)
            = "I"%char :: "n"%char :: v.
Proof.
  split; [vm_compute; reflexivity|].
  intros after_year in_match Hin. split.
  - rewrite title_venue_eq. unfold title_venue_value. rewrite Hin.
    reflexivity.
  - apply in_venue_after_period, Hin.
Qed.

Lemma scenario_1_venue_after_period_witness :
  re_search in_re (lit "A Study of Things. In Proceedings of Foo.")
  = Some (mk_rmatch 17 [lit "."; lit " "; lit "I"; lit "n"; lit " "])
  /\ title_venue (lit "A Study of Things. In Proceedings of Foo.") =
     ret (lit "A Study of Things", lit "In Proceedings of Foo.").
Proof.
  split; [reflexivity|].
  refine (proj1 (proj2 scenario_1_venue_after_period
                   (lit "A Study of Things. In Proceedings of Foo.")
                   (mk_rmatch 17 [lit "."; lit " "; lit "I"; lit "n"; lit " "])
                   _)).
  reflexivity.
Defined.

(** ** The first author *)

(** C5: the last name in a returned tuple is derived from its author text
    as the specification says: the segment before the first comma or the
    first word [and] (a word being set off by whitespace on both sides),
    split on whitespace, the last token without its trailing periods and
    commas, or [Unknown] without a token.  On the block of scenario 2 it is
    [Lastname]. *)
Theorem first_author_last_derivation (block : str) (r : reference) :
  outcome (parse_reference block) = Ok (Some r) ->
  first_author_last r = spec_first_author_last (authors_str r)
  /\ (block = lit "A. B. Lastname. 1999. Some Title." ->
      first_author_last r = lit "Lastname").
Proof.
  intros H. split.
  - destruct (parse_reference_cases block)
      as [[_ E] | [(_ & _ & E) | (m & _ & _ & E)]];
      rewrite E in H; unfold ret, outcome in H; cbn [fst] in H;
      try discriminate H.
    injection H as <-. reflexivity.
  - intros ->. vm_compute in H. injection H as <-. reflexivity.
Qed.

Lemma first_author_last_derivation_witness :
  outcome (parse_reference (lit "A. B. Lastname. 1999. Some Title.")) =
    Ok (Some (mk_reference (lit "Lastname") 1999 (lit "A. B. Lastname")
                (lit "Some Title.") []))
  /\ lit "Lastname" = spec_first_author_last (lit "A. B. Lastname").
Proof.
  split; [vm_compute; reflexivity|].
  refine (proj1 (first_author_last_derivation
                   (lit "A. B. Lastname. 1999. Some Title.")
                   (mk_reference (lit "Lastname") 1999 (lit "A. B. Lastname")
                      (lit "Some Title.") []) _)).
  vm_compute. reflexivity.
Defined.

Lemma and_inside_words_cons prev c s' :
  and_inside_words prev (c :: s') =
  (if startswith (lit "and") (c :: s')
   then match prev with
        | Some p => negb (isspace p)
        | None => false
        end
        || match s' with
           | _ :: _ :: c' :: _ => negb (isspace c')
           | _ => false
           end
   else true)
  && and_inside_words (Some c) s'.
Proof. reflexivity. Qed.

Lemma and_word_not_inside x : forall prev w c' r,
  isspace w = true -> isspace c' = true ->
  and_inside_words prev
    (x ++ w :: "a"%char :: "n"%char :: "d"%char :: c' :: r) = false.
Proof.
  induction x as [|a x IH]; intros prev w c' r Hw Hc.
  - cbn [app]. rewrite and_inside_words_cons. apply andb_false_iff. right.
    rewrite and_inside_words_cons. apply andb_false_iff. left.
    change (startswith (lit "and")
              ("a"%char :: "n"%char :: "d"%char :: c' :: r)) with true.
    cbv iota. rewrite Hw, Hc. reflexivity.
  - cbn [app]. rewrite and_inside_words_cons. apply andb_false_iff. right.
    apply IH; assumption.
Qed.

Lemma at_word_and_shape s :
  at_word_and s = true ->
  exists lead w c' r,
    s = lead ++ w :: "a"%char :: "n"%char :: "d"%char :: c' :: r
    /\ isspace w = true /\ isspace c' = true.
Proof.
  unfold at_word_and. destruct s as [|c s]; [discriminate|].
  intros H. apply andb_true_iff in H. destruct H as [Hc H].
  unfold lstrip in H.
  destruct (drop_while_spec isspace (c :: s)) as (lead & E & Hl & _).
  destruct (drop_while isspace (c :: s)) as [|a [|n [|d [|c' r]]]];
    try discriminate H.
  repeat (apply andb_true_iff in H; destruct H as [H ?]).
  apply is_char_true in H. subst a.
  match goal with H : is_char "n" _ = true |- _ =>
    apply is_char_true in H; subst n end.
  match goal with H : is_char "d" _ = true |- _ =>
    apply is_char_true in H; subst d end.
  destruct (@exists_last _ lead) as (lead' & w & ->).
  { intros ->. simpl in E. injection E as -> _. discriminate Hc. }
  rewrite forallb_app in Hl. apply andb_true_iff in Hl.
  destruct Hl as [_ Hw]. simpl in Hw. rewrite andb_true_r in Hw.
  exists lead', w, c', r. rewrite E, <- app_assoc. auto.
Qed.

(** C10: an author text without a comma in which every [and] is part of a
    longer word is not split: [re.split] returns it whole, so the segment
    of the first author is the entire text. *)
Theorem and_inside_word_no_split (authors_str : str) :
  existsb (is_char ",") authors_str = false ->
  and_inside_words None authors_str = true ->
  re_split author_sep_re 0 authors_str = [authors_str]
  /\ getitem (re_split author_sep_re 0 authors_str) 0 = ret authors_str.
Proof.
  intros Hcomma Hand.
  assert (Hs : re_search author_sep_re authors_str = None).
  { destruct (re_search author_sep_re authors_str) as [m|] eqn:Hs;
      [|reflexivity].
    exfalso.
    destruct (re_search_some _ _ _ Hs) as (rest & Hle & Hm & _).
    assert (Hat : at_author_sep (skipn (m_start m) authors_str) = true)
      by (apply author_sep_here; congruence).
    pose proof (firstn_skipn (m_start m) authors_str) as Efs.
    unfold at_author_sep in Hat.
    destruct (skipn (m_start m) authors_str) as [|c t] eqn:Esk;
      [discriminate|].
    apply orb_true_iff in Hat. destruct Hat as [Hc | Hw].
    - rewrite <- Efs, existsb_app in Hcomma.
      apply orb_false_iff in Hcomma. destruct Hcomma as [_ Hcomma].
      simpl in Hcomma. apply orb_false_iff in Hcomma.
      destruct Hcomma as [Hcomma _]. congruence.
    - destruct (at_word_and_shape _ Hw) as (lead & w & c' & r & E & Hsp & Hc').
      rewrite <- Efs, E, app_assoc in Hand.
      rewrite and_word_not_inside in Hand by assumption. discriminate. }
  rewrite re_split_unlimited, Hs. split; reflexivity.
Qed.

Lemma and_inside_word_no_split_witness :
  re_split author_sep_re 0 (lit "Alexander Anderson") =
    [lit "Alexander Anderson"]
  /\ getitem (re_split author_sep_re 0 (lit "Alexander Anderson")) 0 =
    ret (lit "Alexander Anderson").
Proof.
  apply (and_inside_word_no_split (lit "Alexander Anderson"));
    vm_compute; reflexivity.
Defined.

(** ** Sorting *)

Section SortProperties.
Context {A K : Type} (ltb : K -> K -> bool) (key : A -> K).
Hypothesis ltb_irrefl : forall k, ltb k k = false.
Hypothesis ltb_trans :
  forall a b c, ltb a b = true -> ltb b c = true -> ltb a c = true.
Hypothesis ltb_total :
  forall a b, ltb a b = false -> ltb b a = false -> a = b.

Lemma ltb_asym a b : ltb a b = true -> ltb b a = false.
Proof.
  intros H. destruct (ltb b a) eqn:E; [|reflexivity].
  rewrite <- (ltb_irrefl a). symmetry. eapply ltb_trans; eassumption.
Qed.

Lemma in_order_trans x y z : in_order ltb key x y -> in_order ltb key y z -> in_order ltb key x z.
Proof.
  unfold in_order. intros Hxy Hyz.
  destruct (ltb (key z) (key x)) eqn:Hzx; [|reflexivity].
  destruct (ltb (key x) (key y)) eqn:Hxy'.
  - rewrite <- Hyz. symmetry. eapply ltb_trans; eassumption.
  - rewrite <- (ltb_total _ _ Hxy Hxy') in Hzx. congruence.
Qed.

Lemma insert_by_perm x l : Permutation (x :: l) (insert_by ltb key x l).
Proof.
  induction l as [|y l IH]; simpl; [reflexivity|].
  destruct (ltb (key y) (key x)); [|reflexivity].
  rewrite perm_swap. constructor. exact IH.
Qed.

Lemma sort_by_perm l : Permutation l (sort_by ltb key l).
Proof.
  induction l as [|x l IH]; simpl; [constructor|].
  rewrite <- insert_by_perm. constructor. exact IH.
Qed.

Lemma insert_by_Forall (P : A -> Prop) x l :
  P x -> Forall P l -> Forall P (insert_by ltb key x l).
Proof.
  intros Hx Hl. induction Hl as [|y l Hy Hl IH]; simpl.
  - constructor; [exact Hx|constructor].
  - destruct (ltb (key y) (key x)); repeat constructor; assumption.
Qed.

Lemma insert_by_sorted x l :
  StronglySorted (in_order ltb key) l ->
  StronglySorted (in_order ltb key) (insert_by ltb key x l).
Proof.
  induction 1 as [|y l Hs IH Hy]; simpl.
  - repeat constructor.
  - destruct (ltb (key y) (key x)) eqn:Hyx.
    + constructor; [exact IH|].
      apply insert_by_Forall; [|exact Hy].
      unfold in_order. apply ltb_asym, Hyx.
    + constructor; [constructor; assumption|].
      constructor; [exact Hyx|].
      eapply Forall_impl; [|exact Hy].
      intros z Hz. eapply in_order_trans; [exact Hyx|exact Hz].
Qed.

Lemma sort_by_sorted l : StronglySorted (in_order ltb key) (sort_by ltb key l).
Proof.
  induction l as [|x l IH]; simpl; [constructor|].
  apply insert_by_sorted, IH.
Qed.

(** Insertion does not move [x] past an element with the same key, so the
    elements of any one key keep their order. *)
Lemma insert_by_filter (same : A -> bool) k x l :
  (forall y, same y = true <-> key y = k) ->
  filter same (insert_by ltb key x l) = filter same (x :: l).
Proof.
  intros Hsame. induction l as [|y l IH]; [reflexivity|].
  cbn [insert_by]. destruct (ltb (key y) (key x)) eqn:Hyx; [|reflexivity].
  cbn [filter] in *. rewrite IH.
  destruct (same x) eqn:Hx, (same y) eqn:Hy; try reflexivity.
  apply Hsame in Hx, Hy. rewrite Hx, Hy, ltb_irrefl in Hyx. discriminate.
Qed.

Lemma sort_by_filter (same : A -> bool) k l :
  (forall y, same y = true <-> key y = k) ->
  filter same (sort_by ltb key l) = filter same l.
Proof.
  intros Hsame. induction l as [|x l IH]; [reflexivity|].
  cbn [sort_by]. rewrite (insert_by_filter same k) by exact Hsame.
  cbn [filter]. rewrite IH. reflexivity.
Qed.
End SortProperties.

(** The order of strings *)

Lemma nat_of_ascii_inj x y : nat_of_ascii x = nat_of_ascii y -> x = y.
Proof.
  intros H. rewrite <- (ascii_nat_embedding x), <- (ascii_nat_embedding y).
  rewrite H. reflexivity.
Qed.

Lemma str_ltb_irrefl a : str_ltb a a = false.
Proof.
  induction a as [|x a IH]; simpl; [reflexivity|].
  rewrite Nat.ltb_irrefl. exact IH.
Qed.

Lemma str_ltb_trans a : forall b c,
  str_ltb a b = true -> str_ltb b c = true -> str_ltb a c = true.
Proof.
  induction a as [|x a IH]; intros [|y b] [|z c]; simpl;
    try discriminate; try reflexivity.
  destruct (Nat.ltb_spec (nat_of_ascii x) (nat_of_ascii y)),
    (Nat.ltb_spec (nat_of_ascii y) (nat_of_ascii x)),
    (Nat.ltb_spec (nat_of_ascii y) (nat_of_ascii z)),
    (Nat.ltb_spec (nat_of_ascii z) (nat_of_ascii y)),
    (Nat.ltb_spec (nat_of_ascii x) (nat_of_ascii z)),
    (Nat.ltb_spec (nat_of_ascii z) (nat_of_ascii x));
    try discriminate; try lia; try reflexivity.
  apply IH.
Qed.

Lemma str_ltb_total a : forall b,
  str_ltb a b = false -> str_ltb b a = false -> a = b.
Proof.
  induction a as [|x a IH]; intros [|y b]; simpl;
    try discriminate; try reflexivity.
  destruct (Nat.ltb_spec (nat_of_ascii x) (nat_of_ascii y)),
    (Nat.ltb_spec (nat_of_ascii y) (nat_of_ascii x));
    try discriminate; try lia.
  intros H1 H2. f_equal; [apply nat_of_ascii_inj; lia|apply IH; assumption].
Qed.

Lemma str_eqb_eq a b : str_eqb a b = true <-> a = b.
Proof.
  unfold str_eqb. destruct (list_eq_dec ascii_dec a b); split; congruence.
Qed.

Lemma key_eqb_eq a b : key_eqb a b = true <-> a = b.
Proof.
  destruct a as [s1 z1], b as [s2 z2]. unfold key_eqb. cbn [fst snd].
  rewrite andb_true_iff, str_eqb_eq, Z.eqb_eq. split.
  - intros [-> ->]. reflexivity.
  - intros [= -> ->]. auto.
Qed.

Lemma key_ltb_irrefl k : key_ltb k k = false.
Proof.
  unfold key_ltb. destruct (str_eqb (fst k) (fst k)) eqn:E.
  - apply Z.ltb_irrefl.
  - apply str_ltb_irrefl.
Qed.

Lemma key_ltb_trans a b c :
  key_ltb a b = true -> key_ltb b c = true -> key_ltb a c = true.
Proof.
  destruct a as [s1 z1], b as [s2 z2], c as [s3 z3].
  unfold key_ltb. cbn [fst snd].
  destruct (str_eqb s1 s2) eqn:E12, (str_eqb s2 s3) eqn:E23;
    try (apply str_eqb_eq in E12; subst s2);
    try (apply str_eqb_eq in E23; subst s3).
  - rewrite (proj2 (str_eqb_eq s1 s1) eq_refl).
    rewrite !Z.ltb_lt. lia.
  - rewrite E23. auto.
  - rewrite E12. auto.
  - intros H1 H2. pose proof (str_ltb_trans _ _ _ H1 H2) as H13.
    destruct (str_eqb s1 s3) eqn:E13; [|exact H13].
    apply str_eqb_eq in E13. subst s3.
    rewrite str_ltb_irrefl in H13. discriminate.
Qed.

Lemma key_ltb_total a b :
  key_ltb a b = false -> key_ltb b a = false -> a = b.
Proof.
  destruct a as [s1 z1], b as [s2 z2]. unfold key_ltb. cbn [fst snd].
  destruct (str_eqb s1 s2) eqn:E12.
  - apply str_eqb_eq in E12. subst s2.
    rewrite (proj2 (str_eqb_eq s1 s1) eq_refl). rewrite !Z.ltb_ge.
    intros. f_equal. lia.
  - destruct (str_eqb s2 s1) eqn:E21.
    + apply str_eqb_eq in E21. subst s2.
      rewrite (proj2 (str_eqb_eq s1 s1) eq_refl) in E12. discriminate.
    + intros H1 H2. rewrite (str_ltb_total _ _ H1 H2) in E12.
      rewrite (proj2 (str_eqb_eq s2 s2) eq_refl) in E12. discriminate.
Qed.

Lemma key_le_ltb a b : key_ltb b a = false <-> key_le a b.
Proof.
  destruct a as [s1 z1], b as [s2 z2]. unfold key_ltb, key_le. cbn [fst snd].
  destruct (str_eqb s2 s1) eqn:E.
  - apply str_eqb_eq in E. subst s2. rewrite Z.ltb_ge, str_ltb_irrefl.
    split; [auto|]. intros [H | [_ H]]; [discriminate|exact H].
  - split.
    + intros H. left. destruct (str_ltb s1 s2) eqn:H'; [reflexivity|].
      rewrite (str_ltb_total _ _ H H') in E.
      rewrite (proj2 (str_eqb_eq s1 s1) eq_refl) in E. discriminate.
    + intros [H | [-> _]].
      * destruct (str_ltb s2 s1) eqn:H'; [|reflexivity].
        pose proof (str_ltb_trans _ _ _ H H') as Hc.
        rewrite str_ltb_irrefl in Hc. discriminate.
      * rewrite (proj2 (str_eqb_eq s2 s2) eq_refl) in E. discriminate.
Qed.

(** C6: the references are sorted by the last name in lower case, then
    by the year, both ascending: the sorted list is a rearrangement of the
    parsed one; of two of its entries the earlier has the smaller
    lower-cased last name, or the same one and a year that is not larger;
    the entries of any one lower-cased last name and year are in it in the
    order they had before; [main] returns this list and the page whose
    entries follow it in that order; and a last name in upper case is
    placed by its lower-case form. *)
Theorem sort_refs_ascending_stable (parsed_refs : list reference) :
  Permutation parsed_refs (sort_refs parsed_refs)
  /\ StronglySorted
       (fun a b =>
          str_ltb (lower (first_author_last a)) (lower (first_author_last b))
          = true
          \/ (lower (first_author_last a) = lower (first_author_last b)
              /\ (year a <= year b)%Z))
       (sort_refs parsed_refs)
  /\ (forall name y,
        filter (fun x => str_eqb (lower (first_author_last x)) name
                         && (year x =? y)%Z) (sort_refs parsed_refs) =
        filter (fun x => str_eqb (lower (first_author_last x)) name
                         && (year x =? y)%Z) parsed_refs)
  /\ (forall content,
        outcome (main content) =
        Ok (sort_refs (parsed_of (split_sep (newline ++ newline) content)),
            join newline
              (html_head
               ++ flat_map html_entry
                    (sort_refs
                       (parsed_of (split_sep (newline ++ newline) content)))
               ++ [lit "</body>"; lit "</html>"])))
  /\ sort_refs
       [mk_reference (lit "Baker") 2001 (lit "B Baker") (lit "T1") [];
        mk_reference (lit "adams") 2002 (lit "A adams") (lit "T2") [];
        mk_reference (lit "Adams") 1999 (lit "C Adams") (lit "T3") []]
     = [mk_reference (lit "Adams") 1999 (lit "C Adams") (lit "T3") [];
        mk_reference (lit "adams") 2002 (lit "A adams") (lit "T2") [];
        mk_reference (lit "Baker") 2001 (lit "B Baker") (lit "T1") []].
Proof.
  split; [apply sort_by_perm|]. split; [|split; [|split]].
  - pose proof (sort_by_sorted key_ltb sort_key key_ltb_irrefl key_ltb_trans
                  key_ltb_total parsed_refs) as H.
    unfold sort_refs.
    induction H as [|x l Hs IH Hx]; constructor; [exact IH|].
    eapply Forall_impl; [|exact Hx].
    intros z Hz. apply key_le_ltb in Hz. exact Hz.
  - intros name y.
    apply (sort_by_filter key_ltb sort_key key_ltb_irrefl
             (fun x => key_eqb (sort_key x) (name, y)) (name, y)).
    intros z. apply key_eqb_eq.
  - intros content. rewrite main_eq. reflexivity.
  - vm_compute. reflexivity.
Qed.

(** ** Well-formed blocks *)

(** A run of [p] at the start of a text ends before the first character
    outside [p]. *)
Lemma app_run_prefix (p : ascii -> bool) (l1 : str) : forall x a d y,
  l1 ++ x = a ++ d :: y -> forallb p l1 = true -> p d = false ->
  exists a', a = l1 ++ a' /\ x = a' ++ d :: y.
Proof.
  induction l1 as [|c l1 IH]; intros x a d y E Hl Hd.
  - exists a. auto.
  - simpl in Hl. apply andb_true_iff in Hl. destruct Hl as [Hc Hl].
    destruct a as [|a0 a].
    + simpl in E. injection E as -> _. congruence.
    + simpl in E. injection E as -> E.
      destruct (IH _ _ _ _ E Hl Hd) as (a' & -> & ->).
      exists a'. auto.
Qed.

(** A run of [p] at the end of a text starts after the last character
    outside [p]. *)
Lemma app_run_suffix (p : ascii -> bool) (t x : str) : forall b c r,
  x ++ t = b ++ c :: r -> forallb p t = true -> p c = false ->
  exists r', r = r' ++ t /\ x = b ++ c :: r'.
Proof.
  induction x as [|a x IH]; intros b c r E Ht Hc.
  - exfalso. simpl in E. rewrite E, forallb_app in Ht.
    apply andb_true_iff in Ht. destruct Ht as [_ Ht].
    simpl in Ht. rewrite Hc in Ht. discriminate.
  - destruct b as [|b0 b].
    + simpl in E. injection E as -> E. exists x. auto.
    + simpl in E. injection E as -> E.
      destruct (IH _ _ _ E Ht Hc) as (r' & -> & ->).
      exists r'. auto.
Qed.

(** Two runs of [p] that both stop at a character outside [p] are the
    same run. *)
Lemma app_run_eq (p : ascii -> bool) (l1 l2 : str) x y r1 r2 :
  l1 ++ x :: r1 = l2 ++ y :: r2 ->
  forallb p l1 = true -> forallb p l2 = true ->
  p x = false -> p y = false ->
  l1 = l2 /\ x :: r1 = y :: r2.
Proof.
  intros E H1 H2 Hx Hy.
  destruct (app_run_prefix p l1 _ _ _ _ E H1 Hy) as (a' & -> & E').
  destruct a' as [|a0 a'].
  - rewrite app_nil_r. auto.
  - exfalso. simpl in E'. injection E' as <- _.
    rewrite forallb_app in H2. apply andb_true_iff in H2.
    destruct H2 as [_ H2]. simpl in H2. rewrite Hx in H2. discriminate.
Qed.

Lemma positions_from_in p s : forall i j,
  j <= length s -> p (skipn j s) = true -> In (i + j) (positions_from p i s).
Proof.
  induction s as [|c s IH]; intros i j Hj Hp; cbn [positions_from].
  - simpl in Hj. replace j with 0 in * by lia. simpl in Hp. rewrite Hp.
    rewrite Nat.add_0_r. left. reflexivity.
  - destruct j as [|j].
    + simpl in Hp. rewrite Hp. rewrite Nat.add_0_r. left. reflexivity.
    + apply in_or_app. right. replace (i + S j) with (S i + j) by lia.
      apply IH; [simpl in Hj; lia|exact Hp].
Qed.

Lemma year_delim_prefix_app x t :
  year_delim_prefix x -> year_delim_prefix (x ++ t).
Proof.
  intros (ws1 & d & ws2 & post & -> & Hrest).
  exists ws1, d, ws2, (post ++ t). split; [|exact Hrest].
  simpl. rewrite <- !app_assoc. simpl. rewrite <- !app_assoc. reflexivity.
Qed.

(** A match of [\.\s+In\s+] or of [\.\s+] starts at a period followed by
    whitespace. *)
Lemma match_starts_period_space r s segs rest :
  (forall atoms, In atoms r ->
     exists k, atoms = One (is_char ".") :: Many1 isspace :: k) ->
  match_alts r s = Some (segs, rest) ->
  period_then_space s = true.
Proof.
  intros Hr H. destruct (match_alts_sound _ _ _ _ H) as (E & atoms & Hin & HF).
  destruct (Hr _ Hin) as (k & ->). inv_atoms. subst. cbn [concat app].
  unfold period_then_space. change (is_char "." "."%char) with true.
  bool_facts.
Qed.

Lemma title_before_period r c x m :
  (forall atoms, In atoms r ->
     exists k, atoms = One (is_char ".") :: Many1 isspace :: k) ->
  isspace c = false -> period_then_space (c :: x) = false ->
  re_search r (c :: x) = Some m ->
  strip (firstn (m_start m) (c :: x)) <> [].
Proof.
  intros Hr Hc Hdot Hs.
  destruct (re_search_some _ _ _ Hs) as (rest & _ & Hm & _).
  pose proof (match_starts_period_space _ _ _ _ Hr Hm) as E.
  destruct (m_start m) as [|k].
  - cbn [skipn] in E. congruence.
  - cbn [firstn]. destruct (strip_cons_stop c (firstn k x) Hc) as (t & ->).
    discriminate.
Qed.

(** The title found in a text that starts neither with whitespace nor with
    a period followed by whitespace is not empty. *)
Lemma title_nonempty c x :
  isspace c = false -> period_then_space (c :: x) = false ->
  fst (title_venue_value (c :: x)) <> [].
Proof.
  intros Hc Hdot. unfold title_venue_value.
  destruct (re_search in_re (c :: x)) as [m|] eqn:Hin.
  - cbn [fst]. apply (title_before_period in_re); try assumption.
    intros atoms [<- | []]. eauto.
  - destruct (re_search sentence_re (c :: x)) as [m|] eqn:Hsen.
    + cbn [fst]. apply (title_before_period sentence_re); try assumption.
      intros atoms [<- | []]. eauto.
    + cbn [fst]. destruct (strip_cons_stop c x Hc) as (t & ->). discriminate.
Qed.

Lemma re_search_after r s m rest :
  match_alts r (skipn (m_start m) s) = Some (m_segs m, rest) ->
  skipn (m_end m) s = rest.
Proof.
  intros Hm. destruct (match_alts_sound _ _ _ _ Hm) as (E & _).
  unfold m_end. rewrite Nat.add_comm, <- skipn_skipn, E.
  rewrite skipn_app, Nat.sub_diag, skipn_all. reflexivity.
Qed.

(** C4: a block of the shape authors, period, whitespace, four digits,
    period, whitespace, title, period, whitespace, venue, whose title
    starts neither with whitespace nor with a period followed by
    whitespace, and in which the year delimiter occurs only once, after
    the authors, is parsed: the year of the returned tuple is the number
    the four digits write and its title is not empty. *)
Theorem well_formed_block_year_title
  (block authors ws1 : str) (d1 d2 d3 d4 : ascii) (ws2 : str)
  (c : ascii) (title_rest ws3 venue_text : str) :
  block = authors ++ "."%char :: ws1 ++ [d1; d2; d3; d4]
            ++ "."%char :: ws2 ++ (c :: title_rest)
            ++ "."%char :: ws3 ++ venue_text ->
  ws1 <> [] -> forallb isspace ws1 = true ->
  forallb isdecimal [d1; d2; d3; d4] = true ->
  ws2 <> [] -> forallb isspace ws2 = true ->
  isspace c = false -> period_then_space (c :: title_rest) = false ->
  ws3 <> [] -> forallb isspace ws3 = true ->
  year_delim_positions block = [length authors] ->
  exists r,
    parse_reference block = (Ok (Some r), [])
    /\ year r = (digit_value d1 * 1000 + digit_value d2 * 100
                 + digit_value d3 * 10 + digit_value d4)%Z
    /\ title r <> [].
Proof.
  intros Hblock N1 H1 Hd N2 H2 Hc Hdot N3 H3 Hpos.
  destruct (strip_spec block) as (lead & trail & E & Hl & Ht & _).
  remember (strip block) as S eqn:HeqS.
  (* the stripped block *)
  assert (E1 : lead ++ (S ++ trail) =
               authors ++ "."%char :: (ws1 ++ [d1; d2; d3; d4]
                 ++ "."%char :: ws2 ++ (c :: title_rest)
                 ++ "."%char :: ws3 ++ venue_text))
    by (rewrite <- E; exact Hblock).
  destruct (app_run_prefix isspace lead _ _ _ _ E1 Hl period_not_space)
    as (authors' & Ea & E2).
  assert (E3 : S ++ trail =
               (authors' ++ "."%char :: ws1 ++ [d1; d2; d3; d4]
                  ++ "."%char :: ws2)
               ++ c :: (title_rest ++ "."%char :: ws3 ++ venue_text)).
  { rewrite E2. repeat (rewrite <- app_assoc; cbn [app]). reflexivity. }
  destruct (app_run_suffix isspace trail S _ _ _ E3 Ht Hc) as (R' & ER & ES).
  assert (ESk : skipn (length authors') S =
                "."%char :: ws1 ++ d1 :: d2 :: d3 :: d4
                  :: "."%char :: ws2 ++ c :: R').
  { rewrite ES, <- app_assoc, skipn_app, Nat.sub_diag, skipn_all.
    cbn [app skipn]. repeat (rewrite <- app_assoc; cbn [app]). reflexivity. }
  assert (Hlen : length authors' <= length S).
  { rewrite ES, !length_app. lia. }
  (* the year is found *)
  destruct (re_search year_re S) as [m|] eqn:Hs.
  2:{ exfalso. pose proof (re_search_none _ _ Hs _ Hlen) as Hn.
      revert Hn. apply year_prefix_match. rewrite ESk.
      exists ws1, [d1; d2; d3; d4], ws2, (c :: R').
      repeat split; auto. }
  destruct (re_search_some _ _ _ Hs) as (rest & Hle & Hm & _).
  (* and only after the authors *)
  assert (Hj : m_start m = length authors').
  { assert (Hhere : year_delim_here
                      (skipn (length lead + m_start m) block) = true).
    { rewrite E, skipn_app.
      replace (length lead + m_start m - length lead) with (m_start m)
        by lia.
      rewrite skipn_all2 by lia. cbn [app].
      rewrite skipn_app.
      replace (m_start m - length S) with 0 by lia. cbn [skipn].
      apply year_here_prefix, year_delim_prefix_app, year_prefix_match.
      congruence. }
    assert (Hb : length lead + m_start m <= length block)
      by (rewrite E, !length_app; lia).
    pose proof (positions_from_in year_delim_here block 0 _ Hb Hhere) as Hin.
    unfold year_delim_positions in Hpos. rewrite Hpos in Hin.
    destruct Hin as [Hin | []]. rewrite Ea, length_app in Hin.
    cbn [Nat.add] in Hin. lia. }
  (* the text of the match *)
  pose proof (re_search_after _ _ _ _ Hm) as Hafter.
  rewrite Hj, ESk in Hm.
  destruct (year_match_inv _ _ _ Hm)
    as (w1 & ws1' & e1 & e2 & e3 & e4 & w2 & ws2' & Hsegs & Em & Hw1 & Hws1
        & He1 & He2 & He3 & He4 & Hw2 & Hws2).
  injection Em as Em.
  cbn [forallb] in Hd.
  apply andb_true_iff in Hd. destruct Hd as [Hd1 Hd].
  apply andb_true_iff in Hd. destruct Hd as [Hd2 Hd].
  apply andb_true_iff in Hd. destruct Hd as [Hd3 Hd].
  apply andb_true_iff in Hd. destruct Hd as [Hd4 _].
  cbn [app] in Em.
  change (w1 :: ws1' ++ e1 :: e2 :: e3 :: e4 :: "."%char :: w2 :: ws2' ++ rest)
    with ((w1 :: ws1') ++ e1 :: e2 :: e3 :: e4 :: "."%char
            :: w2 :: ws2' ++ rest) in Em.
  apply (app_run_eq isspace) in Em;
    [|assumption|cbn [forallb]; rewrite Hw1; assumption
     |apply decimal_not_space; assumption
     |apply decimal_not_space; assumption].
  destruct Em as [_ Em]. injection Em as <- <- <- <- Em.
  symmetry in Em.
  change (w2 :: ws2' ++ rest) with ((w2 :: ws2') ++ rest) in Em.
  apply (app_run_prefix isspace) in Em;
    [|cbn [forallb]; rewrite Hw2; assumption|assumption].
  destruct Em as (gap & Egap & Erest).
  assert (Hgap : forallb isspace gap = true).
  { rewrite Egap, forallb_app in H2. apply andb_true_iff in H2.
    apply H2. }
  (* the returned tuple *)
  exists (parsed_value S m). split; [|split].
  - rewrite HeqS. apply parse_reference_found. rewrite <- HeqS. exact Hs.
  - unfold parsed_value, m_group. cbn [year]. rewrite Hsegs.
    cbn [skipn firstn concat app]. apply decimal_value_4.
  - unfold parsed_value. cbn [title]. rewrite clean_title_id.
    rewrite Hafter, Erest, strip_app_ws_l by assumption.
    assert (Hdot' : period_then_space (c :: R') = false).
    { destruct R' as [|a R'']; [reflexivity|].
      destruct title_rest as [|w t]; cbn [app] in ER; injection ER as <- _.
      - unfold period_then_space. rewrite period_not_space.
        apply andb_false_r.
      - exact Hdot. }
    destruct (strip_cons_shape c R' Hc) as (t & tr & -> & ER' & _).
    apply title_nonempty; [exact Hc|].
    destruct t as [|a t']; [reflexivity|].
    rewrite ER' in Hdot'. exact Hdot'.
Qed.

Lemma well_formed_block_year_title_witness :
  exists r,
    parse_reference (lit "Ada Lovelace. 1843. Notes on the Engine. Taylor.") =
      (Ok (Some r), [])
    /\ year r = 1843%Z
    /\ title r <> [].
Proof.
  apply (well_formed_block_year_title
           (lit "Ada Lovelace. 1843. Notes on the Engine. Taylor.")
           (lit "Ada Lovelace") (lit " ") "1" "8" "4" "3" (lit " ")
           "N" (lit "otes on the Engine") (lit " ") (lit "Taylor."));
    try reflexivity; try discriminate.
Defined.

(** * Further properties of the code *)

(** ** What a returned tuple is made of *)

Lemma parse_reference_some_inv block r :
  outcome (parse_reference block) = Ok (Some r) ->
  exists m,
    strip block <> []
    /\ re_search year_re (strip block) = Some m
    /\ r = parsed_value (strip block) m.
Proof.
  intros H.
  destruct (parse_reference_cases block)
    as [[_ E] | [(_ & _ & E) | (m & Hb & Hs & E)]];
    rewrite E in H; unfold ret, outcome in H; cbn [fst] in H;
    try discriminate H.
  injection H as <-. exists m. auto.
Qed.

Lemma strip_nil : strip [] = [].
Proof. reflexivity. Qed.

Lemma title_venue_value_stripped a :
  strip (fst (title_venue_value a)) = fst (title_venue_value a)
  /\ strip (snd (title_venue_value a)) = snd (title_venue_value a).
Proof.
  unfold title_venue_value.
  destruct (re_search in_re a) as [m|];
    [|destruct (re_search sentence_re a) as [m|]];
    cbn [fst snd]; rewrite ?strip_idem; auto.
Qed.

(** X1: the author text, the title and the venue of a returned tuple have
    no whitespace at either end: stripping them again changes nothing. *)
Theorem returned_fields_stripped (block : str) (r : reference) :
  outcome (parse_reference block) = Ok (Some r) ->
  strip (authors_str r) = authors_str r
  /\ strip (title r) = title r
  /\ strip (venue r) = venue r.
Proof.
  intros H. destruct (parse_reference_some_inv _ _ H) as (m & _ & _ & ->).
  unfold parsed_value. cbn [authors_str title venue].
  rewrite clean_title_id, strip_idem.
  split; [reflexivity|]. apply title_venue_value_stripped.
Qed.

Lemma returned_fields_stripped_witness :
  strip (lit "Ada Lovelace") = lit "Ada Lovelace"
  /\ strip (lit "Notes on the Engine") = lit "Notes on the Engine"
  /\ strip (lit "Taylor.") = lit "Taylor.".
Proof.
  apply (returned_fields_stripped
           (lit "  Ada Lovelace.  1843. Notes on the Engine.  Taylor. ")
           (mk_reference (lit "Lovelace") 1843 (lit "Ada Lovelace")
              (lit "Notes on the Engine") (lit "Taylor."))).
  vm_compute. reflexivity.
Defined.

(** X2: whitespace around a block does not matter: a block with whitespace
    added before and after it is parsed to the same result and prints the
    same lines. *)
Theorem surrounding_whitespace_ignored (before block after : str) :
  forallb isspace before = true ->
  forallb isspace after = true ->
  parse_reference (before ++ block ++ after) = parse_reference block.
Proof.
  intros Hb Ha. unfold parse_reference.
  rewrite strip_app_ws_l by assumption.
  rewrite strip_app_ws_r by assumption. reflexivity.
Qed.

Lemma surrounding_whitespace_ignored_witness :
  parse_reference
    (lit "  " ++ lit "Ada Lovelace. 1843. Notes. Taylor." ++ [ascii_of_nat 10])
  = parse_reference (lit "Ada Lovelace. 1843. Notes. Taylor.").
Proof.
  apply (surrounding_whitespace_ignored (lit "  ")
           (lit "Ada Lovelace. 1843. Notes. Taylor.") [ascii_of_nat 10]);
    reflexivity.
Defined.

(** ** The blocks of a run *)

Lemma blank_iff_strip_nil b : forallb isspace b = true <-> strip b = [].
Proof. split; [apply strip_all_ws|apply strip_nil_all_ws]. Qed.

Lemma block_counted_once b :
  length (parsed_of [b]) + length (warnings_of [b])
  + length (filter (forallb isspace) [b]) = 1.
Proof.
  unfold parsed_of, warnings_of. cbn [flat_map filter].
  rewrite !app_nil_r.
  destruct (parse_reference_cases b)
    as [[Hb E] | [(Hb & _ & E) | (m & Hb & _ & E)]]; rewrite E;
    unfold ret, outcome, printed; cbn [fst snd].
  - rewrite (proj2 (blank_iff_strip_nil b) Hb). reflexivity.
  - destruct (forallb isspace b) eqn:Hw;
      [apply blank_iff_strip_nil in Hw; congruence|]. reflexivity.
  - destruct (forallb isspace b) eqn:Hw;
      [apply blank_iff_strip_nil in Hw; congruence|]. reflexivity.
Qed.

Lemma blocks_count l :
  length (parsed_of l) + length (warnings_of l)
  + length (filter (forallb isspace) l) = length l.
Proof.
  induction l as [|b l IH]; [reflexivity|].
  change (b :: l) with ([b] ++ l).
  rewrite parsed_of_app, warnings_of_app, filter_app, !length_app.
  cbn [length].
  match goal with
  | |- ?a + ?b + (?c + ?d) + (?e + ?f) = 1 + ?g =>
      assert (H1 : a + c + e = 1) by apply block_counted_once;
      assert (H2 : b + d + f = g) by apply IH
  end.
  lia.
Qed.

(** X3: every block is counted once: the number of references parsed, the
    number of warnings printed and the number of blank blocks add up to the
    number of blocks, and [main] returns as many references as were parsed
    and prints the warnings and two more lines. *)
Theorem blocks_accounted_for (content : str) :
  length (parsed_of (split_sep (newline ++ newline) content))
  + length (warnings_of (split_sep (newline ++ newline) content))
  + length (filter (forallb isspace) (split_sep (newline ++ newline) content))
  = length (split_sep (newline ++ newline) content)
  /\ exists refs html,
       outcome (main content) = Ok (refs, html)
       /\ length refs =
          length (parsed_of (split_sep (newline ++ newline) content))
       /\ length (printed (main content)) =
          length (warnings_of (split_sep (newline ++ newline) content)) + 2.
Proof.
  split; [apply blocks_count|].
  - rewrite main_eq. cbv zeta. do 2 eexists.
    unfold outcome, printed. cbn [fst snd].
    split; [reflexivity|]. split.
    + symmetry. apply Permutation_length. apply sort_by_perm.
    + rewrite length_app. reflexivity.
Qed.

(** X4: a warning line is bounded: whatever the block, each warning that
    [main] prints has at most 136 characters. *)
Theorem warning_lines_bounded (content line : str) :
  In line (warnings_of (split_sep (newline ++ newline) content)) ->
  length line <= 136.
Proof.
  unfold warnings_of. intros H. apply in_flat_map in H.
  destruct H as (b & _ & Hb).
  destruct (parse_reference_cases b)
    as [[_ E] | [(_ & _ & E) | (m & _ & _ & E)]]; rewrite E in Hb;
    unfold ret, printed in Hb; cbn [snd] in Hb; try destruct Hb.
  - subst line. unfold warning. rewrite !length_app.
    pose proof (firstn_le_length 100 (strip b)) as Hle.
    rewrite length_firstn. change (length (lit "...")) with 3.
    change (length (lit "Warning: Could not find year in: ")) with 33. lia.
  - contradiction.
Qed.

Lemma warning_lines_bounded_witness :
  length (lit "Warning: Could not find year in: no year...") <= 136.
Proof.
  apply (warning_lines_bounded (lit "no year")).
  vm_compute. left. reflexivity.
Defined.

(** ** Tokens and substrings *)

Lemma infix_refl s : infix s s.
Proof. exists [], []. rewrite app_nil_r. reflexivity. Qed.

Lemma infix_nil s : infix [] s.
Proof. exists [], s. reflexivity. Qed.

Lemma infix_trans a b c : infix a b -> infix b c -> infix a c.
Proof.
  intros (p1 & q1 & ->) (p2 & q2 & ->).
  exists (p2 ++ p1), (q1 ++ q2). rewrite <- !app_assoc. reflexivity.
Qed.

Lemma infix_app_l a p s : infix a s -> infix a (p ++ s).
Proof.
  intros (p1 & q1 & ->). exists (p ++ p1), q1.
  rewrite <- !app_assoc. reflexivity.
Qed.

Lemma infix_app_r a s q : infix a s -> infix a (s ++ q).
Proof.
  intros (p1 & q1 & ->). exists p1, (q1 ++ q).
  rewrite <- !app_assoc. reflexivity.
Qed.

Lemma infix_strip s : infix (strip s) s.
Proof.
  destruct (strip_spec s) as (lead & trail & E & _). exists lead, trail.
  exact E.
Qed.

Lemma infix_firstn n s : infix (firstn n s) s.
Proof.
  exists [], (skipn n s). cbn [app]. symmetry. apply firstn_skipn.
Qed.

Lemma infix_skipn n s : infix (skipn n s) s.
Proof.
  exists (firstn n s), []. rewrite app_nil_r. symmetry.
  apply firstn_skipn.
Qed.

Lemma infix_rstrip_by p s : infix (rstrip_by p s) s.
Proof.
  destruct (rstrip_by_spec p s) as (trail & E & _). exists [], trail.
  exact E.
Qed.

(** The first token of a text that starts outside whitespace starts the
    text. *)
Lemma split_ws_head s : forall c,
  isspace c = false ->
  exists t ts rest,
    split_ws (c :: s) = (c :: t) :: ts /\ s = t ++ rest
    /\ existsb isspace t = false.
Proof.
  induction s as [|c' s IH]; intros c Hc.
  - exists [], [], []. cbn [split_ws]. rewrite Hc. auto.
  - destruct (isspace c') eqn:Hc'.
    + exists [], (split_ws (c' :: s)), (c' :: s).
      change (split_ws (c :: c' :: s)) with
        (if isspace c then split_ws (c' :: s)
         else if isspace c' then [c] :: split_ws (c' :: s)
              else match split_ws (c' :: s) with
                   | t :: ts => (c :: t) :: ts
                   | [] => [[c]]
                   end).
      rewrite Hc, Hc'. auto.
    + destruct (IH c' Hc') as (t & ts & rest & E & -> & Ht).
      exists (c' :: t), ts, rest.
      change (split_ws (c :: c' :: t ++ rest)) with
        (if isspace c then split_ws (c' :: t ++ rest)
         else if isspace c' then [c] :: split_ws (c' :: t ++ rest)
              else match split_ws (c' :: t ++ rest) with
                   | t :: ts => (c :: t) :: ts
                   | [] => [[c]]
                   end).
      rewrite Hc, Hc', E. cbn [existsb]. rewrite Hc', Ht. auto.
Qed.

(** A token of [split] is not empty, has no whitespace and occurs in the
    text. *)
Lemma split_ws_token s : forall t,
  In t (split_ws s) ->
  t <> [] /\ existsb isspace t = false /\ infix t s.
Proof.
  induction s as [|c s IH]; intros t Hin; [destruct Hin|].
  destruct (isspace c) eqn:Hc.
  - cbn [split_ws] in Hin. rewrite Hc in Hin.
    destruct (IH _ Hin) as (H1 & H2 & H3).
    repeat split; auto. apply (infix_app_l t [c] s H3).
  - destruct (split_ws_head s c Hc) as (t0 & ts & rest & E & Es & Ht0).
    rewrite E in Hin. destruct Hin as [<- | Hin].
    + split; [discriminate|]. split.
      * cbn [existsb]. rewrite Hc, Ht0. reflexivity.
      * exists [], rest. cbn [app]. rewrite Es. reflexivity.
    + assert (Hin' : In t (split_ws s)).
      { destruct s as [|c' s']; [discriminate Es || idtac|].
        - cbn [split_ws] in E. rewrite Hc in E. injection E as _ <-.
          destruct Hin.
        - destruct (isspace c') eqn:Hc'.
          + change (split_ws (c :: c' :: s')) with
              (if isspace c then split_ws (c' :: s')
               else if isspace c' then [c] :: split_ws (c' :: s')
                    else match split_ws (c' :: s') with
                         | t :: ts => (c :: t) :: ts
                         | [] => [[c]]
                         end) in E.
            rewrite Hc, Hc' in E. injection E as _ <-. exact Hin.
          + change (split_ws (c :: c' :: s')) with
              (if isspace c then split_ws (c' :: s')
               else if isspace c' then [c] :: split_ws (c' :: s')
                    else match split_ws (c' :: s') with
                         | t :: ts => (c :: t) :: ts
                         | [] => [[c]]
                         end) in E.
            rewrite Hc, Hc' in E.
            destruct (split_ws (c' :: s')) as [|t1 ts1].
            * injection E as _ <-. destruct Hin.
            * injection E as _ <-. right. exact Hin. }
      destruct (IH _ Hin') as (H1 & H2 & H3).
      repeat split; auto. apply (infix_app_l t [c] s H3).
Qed.

Lemma last_in {A} (l : list A) : forall d, In (last l d) (d :: l).
Proof.
  induction l as [|a l IH]; intros d; [left; reflexivity|].
  right. destruct l as [|b l]; [left; reflexivity|].
  change (In (last (b :: l) d) (a :: b :: l)).
  rewrite (last_cons_default b d a). apply IH.
Qed.

Lemma spec_first_segment_prefix s :
  exists rest, s = spec_first_segment s ++ rest.
Proof.
  induction s as [|c s IH]; [exists []; reflexivity|].
  rewrite spec_first_segment_cons.
  destruct (at_author_sep (c :: s)); [exists (c :: s); reflexivity|].
  destruct IH as (rest & E). exists rest. cbn [app]. f_equal. exact E.
Qed.

(** The last name is the placeholder or a token without its trailing
    periods and commas. *)
Lemma spec_last_name_cases seg :
  (split_ws seg = [] /\ spec_last_name seg = lit "Unknown")
  \/ exists t, In t (split_ws seg)
       /\ spec_last_name seg = rstrip_chars (lit ".,") t.
Proof.
  unfold spec_last_name. destruct (split_ws seg) as [|t ts]; [left; auto|].
  right. exists (last ts t). split; [apply last_in|reflexivity].
Qed.

(** X5: the last name of a returned tuple has no whitespace in it and ends
    neither with a period nor with a comma. *)
Theorem last_name_shape (block : str) (r : reference) :
  outcome (parse_reference block) = Ok (Some r) ->
  existsb isspace (first_author_last r) = false
  /\ endswith (first_author_last r) (lit ".") = false
  /\ endswith (first_author_last r) (lit ",") = false.
Proof.
  intros H. destruct (parse_reference_some_inv _ _ H) as (m & _ & _ & ->).
  unfold parsed_value. cbn [first_author_last].
  unfold spec_first_author_last.
  destruct (spec_last_name_cases
              (spec_first_segment (strip (firstn (m_start m) (strip block)))))
    as [[_ ->] | (t & Hin & ->)]; [repeat split; reflexivity|].
  destruct (split_ws_token _ _ Hin) as (_ & Hws & _).
  unfold rstrip_chars.
  destruct (rstrip_by_spec (in_chars (lit ".,")) t)
    as (trail & E & _ & Hend).
  split.
  - rewrite E, existsb_app in Hws. apply orb_false_iff in Hws. apply Hws.
  - destruct Hend as [-> | (r0 & c & -> & Hc)]; [split; reflexivity|].
    unfold endswith. rewrite rev_app_distr. cbn [rev app startswith].
    unfold in_chars in Hc. cbn [lit list_ascii_of_string existsb] in Hc.
    apply orb_false_iff in Hc. destruct Hc as [Hp Hc].
    apply orb_false_iff in Hc. destruct Hc as [Hcm _].
    rewrite Ascii.eqb_sym in Hp. rewrite Ascii.eqb_sym in Hcm.
    cbn [lit list_ascii_of_string rev app startswith].
    rewrite Hp, Hcm. split; reflexivity.
Qed.

Lemma last_name_shape_witness :
  existsb isspace (lit "Lovelace") = false
  /\ endswith (lit "Lovelace") (lit ".") = false
  /\ endswith (lit "Lovelace") (lit ",") = false.
Proof.
  apply (last_name_shape
           (lit "A. Lovelace., C. Babbage. 1843. Notes. Taylor.")
           (mk_reference (lit "Lovelace") 1843
              (lit "A. Lovelace., C. Babbage") (lit "Notes")
              (lit "Taylor."))).
  vm_compute. reflexivity.
Defined.

Lemma title_venue_value_infix a :
  infix (fst (title_venue_value a)) a /\ infix (snd (title_venue_value a)) a.
Proof.
  unfold title_venue_value.
  destruct (re_search in_re a) as [m|];
    [|destruct (re_search sentence_re a) as [m|]]; cbn [fst snd]; split;
    try apply infix_nil; try apply infix_strip;
    (eapply infix_trans; [apply infix_strip|]);
    try apply infix_firstn; apply infix_skipn.
Qed.

(** X6: a returned tuple is made of the text of the block: its author
    text, its title and its venue each occur in the block as they are, and
    its last name is the placeholder [Unknown] or occurs in the author
    text. *)
Theorem fields_are_block_text (block : str) (r : reference) :
  outcome (parse_reference block) = Ok (Some r) ->
  infix (authors_str r) block
  /\ infix (title r) block
  /\ infix (venue r) block
  /\ (first_author_last r = lit "Unknown"
      \/ infix (first_author_last r) (authors_str r)).
Proof.
  intros H. destruct (parse_reference_some_inv _ _ H) as (m & _ & _ & ->).
  unfold parsed_value. cbn [first_author_last authors_str title venue].
  rewrite clean_title_id.
  pose proof (title_venue_value_infix
                (strip (skipn (m_end m) (strip block)))) as [Ht Hv].
  assert (Hay : infix (strip (skipn (m_end m) (strip block))) block).
  { eapply infix_trans; [apply infix_strip|].
    eapply infix_trans; [apply infix_skipn|apply infix_strip]. }
  split; [|split; [|split]].
  - eapply infix_trans; [apply infix_strip|].
    eapply infix_trans; [apply infix_firstn|apply infix_strip].
  - eapply infix_trans; eassumption.
  - eapply infix_trans; eassumption.
  - unfold spec_first_author_last.
    destruct (spec_last_name_cases
                (spec_first_segment
                   (strip (firstn (m_start m) (strip block)))))
      as [[_ ->] | (t & Hin & ->)]; [left; reflexivity|right].
    destruct (split_ws_token _ _ Hin) as (_ & _ & Hinf).
    eapply infix_trans; [apply infix_rstrip_by|].
    eapply infix_trans; [exact Hinf|].
    destruct (spec_first_segment_prefix
                (strip (firstn (m_start m) (strip block)))) as (rest & E).
    exists [], rest. exact E.
Qed.

Lemma fields_are_block_text_witness :
  infix (lit "Ada Lovelace") (lit " Ada Lovelace. 1843. Notes. Taylor.")
  /\ infix (lit "Notes") (lit " Ada Lovelace. 1843. Notes. Taylor.")
  /\ infix (lit "Taylor.") (lit " Ada Lovelace. 1843. Notes. Taylor.")
  /\ (lit "Lovelace" = lit "Unknown"
      \/ infix (lit "Lovelace") (lit "Ada Lovelace")).
Proof.
  apply (fields_are_block_text
           (lit " Ada Lovelace. 1843. Notes. Taylor.")
           (mk_reference (lit "Lovelace") 1843 (lit "Ada Lovelace")
              (lit "Notes") (lit "Taylor."))).
  vm_compute. reflexivity.
Defined.

(** ** Title and venue *)

Lemma length_strip_le s : length (strip s) <= length s.
Proof.
  destruct (strip_spec s) as (lead & trail & E & _).
  rewrite E at 2. rewrite !length_app. lia.
Qed.

Lemma forallb_skipn (p : ascii -> bool) n : forall s,
  forallb p s = true -> forallb p (skipn n s) = true.
Proof.
  induction n as [|n IH]; intros [|c s] H; try exact H; try reflexivity.
  cbn [skipn]. cbn [forallb] in H. apply andb_true_iff in H.
  apply IH, H.
Qed.

(** A stripped text does not end with whitespace. *)
Lemma stripped_no_trailing_ws x y w t :
  strip x = y ++ w :: t ->
  isspace w = true -> forallb isspace t = true -> False.
Proof.
  intros E Hw Ht.
  pose proof (strip_idem x) as Hi. rewrite E in Hi.
  rewrite strip_app_ws_r in Hi by (cbn [forallb]; rewrite Hw; exact Ht).
  pose proof (length_strip_le y) as Hle. rewrite Hi in Hle.
  rewrite length_app in Hle. cbn [length] in Hle. lia.
Qed.

Lemma atoms_match_last_spaces k segs :
  atoms_match (k ++ [Many1 isspace]) segs ->
  exists y w ws,
    concat segs = y ++ w :: ws
    /\ isspace w = true /\ forallb isspace ws = true.
Proof.
  intros HF. apply Forall2_app_inv_l in HF.
  destruct HF as (l1 & l2 & _ & H2 & ->).
  inversion H2 as [|a seg k' l2' Ha Hnil]; subst.
  inversion Hnil; subst. inversion Ha; subst.
  rewrite concat_app. cbn [concat]. rewrite app_nil_r.
  do 3 eexists. split; [reflexivity|]. split; assumption.
Qed.

(** After a match that ends with [\s+] in a stripped text there is text
    that is not whitespace. *)
Lemma stripped_tail_nonblank r x m :
  ends_with_spaces r ->
  re_search r (strip x) = Some m ->
  strip (skipn (m_end m) (strip x)) <> [].
Proof.
  intros Hr Hs Hnil.
  destruct (re_search_split _ _ _ Hs) as (E & atoms & Hin & HF).
  destruct (Hr _ Hin) as (k & ->).
  destruct (atoms_match_last_spaces _ _ HF) as (y & w & ws & Ec & Hw & Hws).
  apply strip_nil_all_ws in Hnil.
  rewrite Ec in E. rewrite <- !app_assoc in E. cbn [app] in E.
  rewrite app_assoc in E.
  apply (stripped_no_trailing_ws _ _ _ _ E Hw).
  rewrite forallb_app, Hws, Hnil. reflexivity.
Qed.

Lemma year_re_ends_with_spaces : ends_with_spaces year_re.
Proof.
  intros atoms [<- | []].
  exists [One (is_char "."); Many1 isspace; One isdecimal; One isdecimal;
          One isdecimal; One isdecimal; One (is_char ".")].
  reflexivity.
Qed.

Lemma in_re_ends_with_spaces : ends_with_spaces in_re.
Proof.
  intros atoms [<- | []].
  exists [One (is_char "."); Many1 isspace; One (is_char "I");
          One (is_char "n")].
  reflexivity.
Qed.

Lemma sentence_re_ends_with_spaces : ends_with_spaces sentence_re.
Proof.
  intros atoms [<- | []]. exists [One (is_char ".")]. reflexivity.
Qed.

Lemma strip_skipn_nonblank j k s :
  j <= k -> strip (skipn k s) <> [] -> strip (skipn j s) <> [].
Proof.
  intros Hjk Hk Hj. apply Hk. apply strip_all_ws.
  apply strip_nil_all_ws in Hj.
  replace k with ((k - j) + j) by lia. rewrite <- skipn_skipn.
  apply forallb_skipn, Hj.
Qed.

Lemma re_search_end_after_start r s m :
  (forall atoms, In atoms r -> atoms <> []) ->
  re_search r s = Some m -> m_start m + 1 <= m_end m.
Proof.
  intros Hr Hs. destruct (re_search_split _ _ _ Hs) as (_ & atoms & Hin & HF).
  pose proof (atoms_match_consumes _ _ (Hr _ Hin) HF). unfold m_end. lia.
Qed.

Lemma period_space_match s :
  period_then_space s = true -> match_alts sentence_re s <> None.
Proof.
  unfold period_then_space. destruct s as [|dot [|w rest]]; try discriminate.
  intros H. apply andb_true_iff in H. destruct H as [Hd Hw].
  apply is_char_true in Hd. subst dot. apply match_alts_iff.
  exists [One (is_char "."); Many1 isspace], [["."%char]; [w]], rest.
  split; [left; reflexivity|]. split; [|reflexivity].
  repeat constructor. exact Hw.
Qed.

(** X7: a returned tuple never has both an empty title and an empty venue;
    and when its venue is empty, its title is not and has no period
    followed by whitespace in it. *)
Theorem title_or_venue_present (block : str) (r : reference) :
  outcome (parse_reference block) = Ok (Some r) ->
  (title r <> [] \/ venue r <> [])
  /\ (venue r = [] ->
      title r <> []
      /\ forall pre post,
           title r = pre ++ post -> period_then_space post = false).
Proof.
  intros H. destruct (parse_reference_some_inv _ _ H) as (m & _ & Hs & ->).
  unfold parsed_value. cbn [title venue]. rewrite clean_title_id.
  pose proof (stripped_tail_nonblank _ _ _ year_re_ends_with_spaces Hs) as Hay.
  remember (skipn (m_end m) (strip block)) as tail eqn:Etail.
  unfold title_venue_value.
  destruct (re_search in_re (strip tail)) as [im|] eqn:Hin.
  - cbn [fst snd].
    assert (Hv : strip (skipn (m_start im + 1) (strip tail)) <> []).
    { apply (strip_skipn_nonblank _ (m_end im)).
      - apply (re_search_end_after_start in_re (strip tail) im);
          [|exact Hin].
        intros atoms [<- | []]. discriminate.
      - apply (stripped_tail_nonblank in_re);
          [apply in_re_ends_with_spaces|exact Hin]. }
    split; [right; exact Hv|]. intros E. contradiction.
  - destruct (re_search sentence_re (strip tail)) as [sm|] eqn:Hsen.
    + cbn [fst snd].
      assert (Hv : strip (skipn (m_end sm) (strip tail)) <> []).
      { apply (stripped_tail_nonblank sentence_re);
          [apply sentence_re_ends_with_spaces|exact Hsen]. }
      split; [right; exact Hv|]. intros E. contradiction.
    + cbn [fst snd]. rewrite strip_idem.
      split; [left; exact Hay|]. intros _. split; [exact Hay|].
      intros pre post E.
      destruct (period_then_space post) eqn:Hp; [|reflexivity].
      exfalso. apply (period_space_match _ Hp).
      pose proof (re_search_none _ _ Hsen (length pre)) as Hn.
      rewrite E, skipn_app, Nat.sub_diag, skipn_all in Hn.
      apply Hn. rewrite length_app. lia.
Qed.

Lemma title_or_venue_present_witness :
  (lit "Notes" <> [] \/ @nil ascii <> [])
  /\ (@nil ascii = [] ->
      lit "Notes" <> []
      /\ forall pre post,
           lit "Notes" = pre ++ post -> period_then_space post = false).
Proof.
  apply (title_or_venue_present
           (lit "Ada Lovelace. 1843. Notes")
           (mk_reference (lit "Lovelace") 1843 (lit "Ada Lovelace")
              (lit "Notes") [])).
  vm_compute. reflexivity.
Defined.

(** ** Leftmost and greedy matching *)

Lemma starts_with_match_app r s t :
  starts_with_match r s -> starts_with_match r (s ++ t).
Proof.
  intros (atoms & segs & rest & Hin & HF & ->).
  exists atoms, segs, (rest ++ t). rewrite app_assoc. auto.
Qed.

Lemma starts_with_match_consumes r s :
  (forall atoms, In atoms r -> atoms <> []) ->
  starts_with_match r s -> s <> [].
Proof.
  intros Hr (atoms & segs & rest & Hin & HF & ->) E.
  pose proof (atoms_match_consumes _ _ (Hr _ Hin) HF) as Hc.
  apply (f_equal (@length ascii)) in E. rewrite length_app in E.
  cbn [length] in E. lia.
Qed.

(** Nothing of the pattern starts in a text that lies before the match of
    [re.search]. *)
Lemma no_match_before r s m t :
  (forall atoms, In atoms r -> atoms <> []) ->
  re_search r s = Some m ->
  infix t (firstn (m_start m) s) ->
  no_match_inside r t.
Proof.
  intros Hr Hs (a & b & E) pre post -> Hm.
  destruct (re_search_some _ _ _ Hs) as (rest & Hle & _ & Hbefore).
  pose proof (starts_with_match_consumes _ _ Hr Hm) as Hne.
  assert (Hlen : length (a ++ pre) < m_start m).
  { apply (f_equal (@length ascii)) in E.
    rewrite length_firstn, !length_app in E.
    destruct post; [congruence|]. cbn [length] in E.
    rewrite length_app. lia. }
  specialize (Hbefore _ Hlen).
  assert (Hsk : skipn (length (a ++ pre)) s
                = post ++ b ++ skipn (m_start m) s).
  { rewrite <- (firstn_skipn (m_start m) s) at 1. rewrite E.
    replace ((a ++ (pre ++ post) ++ b) ++ skipn (m_start m) s)
      with ((a ++ pre) ++ post ++ b ++ skipn (m_start m) s)
      by (rewrite <- !app_assoc; reflexivity).
    rewrite skipn_app, Nat.sub_diag, skipn_all. reflexivity. }
  rewrite Hsk in Hbefore. revert Hbefore. apply match_alts_iff.
  apply starts_with_match_app, Hm.
Qed.

(** Nothing of the pattern starts in a part of a text in which
    [re.search] finds nothing. *)
Lemma no_match_none r s t :
  re_search r s = None -> infix t s -> no_match_inside r t.
Proof.
  intros Hs (a & b & ->) pre post -> Hm.
  pose proof (re_search_none _ _ Hs (length (a ++ pre))) as Hn.
  replace (a ++ (pre ++ post) ++ b) with ((a ++ pre) ++ post ++ b) in Hn
    by (rewrite <- !app_assoc; reflexivity).
  rewrite skipn_app, Nat.sub_diag, skipn_all in Hn. cbn [app] in Hn.
  revert Hn. intros Hn.
  assert (Hb : length (a ++ pre) <= length ((a ++ pre) ++ post ++ b))
    by (rewrite (length_app (a ++ pre)); lia).
  specialize (Hn Hb). revert Hn. apply match_alts_iff.
  apply starts_with_match_app, Hm.
Qed.

(** X8: the author text of a returned tuple does not contain the year
    delimiter: the year is taken at the first place where it can be. *)
Theorem authors_before_first_year (block : str) (r : reference) :
  outcome (parse_reference block) = Ok (Some r) ->
  ~ contains_year_delim (authors_str r).
Proof.
  intros H. destruct (parse_reference_some_inv _ _ H) as (m & _ & Hs & ->).
  unfold parsed_value. cbn [authors_str].
  intros (pre & post & E & Hp).
  apply year_prefix_match, match_alts_iff in Hp.
  assert (Hne : forall atoms, In atoms year_re -> atoms <> [])
    by (intros atoms [<- | []]; discriminate).
  exact (no_match_before year_re (strip block) m _ Hne Hs (infix_strip _)
           pre post E Hp).
Qed.

Lemma authors_before_first_year_witness :
  ~ contains_year_delim (lit "Ada Lovelace").
Proof.
  apply (authors_before_first_year
           (lit "Ada Lovelace. 1843. Notes. 1844. Taylor.")
           (mk_reference (lit "Lovelace") 1843 (lit "Ada Lovelace")
              (lit "Notes") (lit "1844. Taylor."))).
  vm_compute. reflexivity.
Defined.

(** X9: the title of a returned tuple contains no period, whitespace,
    [In], whitespace: when that pattern occurs after the year, the title
    ends before its first occurrence. *)
Theorem title_before_first_In (block : str) (r : reference) :
  outcome (parse_reference block) = Ok (Some r) ->
  no_match_inside in_re (title r).
Proof.
  intros H. destruct (parse_reference_some_inv _ _ H) as (m & _ & _ & ->).
  unfold parsed_value. cbn [title]. rewrite clean_title_id.
  remember (strip (skipn (m_end m) (strip block))) as ay eqn:Eay.
  unfold title_venue_value.
  destruct (re_search in_re ay) as [im|] eqn:Hin.
  - cbn [fst]. apply (no_match_before in_re ay im); [|exact Hin|].
    + intros atoms [<- | []]. discriminate.
    + apply infix_strip.
  - apply (no_match_none in_re ay); [exact Hin|].
    destruct (re_search sentence_re ay) as [sm|]; cbn [fst].
    + eapply infix_trans; [apply infix_strip|apply infix_firstn].
    + apply infix_strip.
Qed.

Lemma title_before_first_In_witness :
  no_match_inside in_re (lit "Notes. Part two").
Proof.
  apply (title_before_first_In
           (lit "Ada Lovelace. 1843. Notes. Part two. In Memoirs. In print.")
           (mk_reference (lit "Lovelace") 1843 (lit "Ada Lovelace")
              (lit "Notes. Part two") (lit "In Memoirs. In print."))).
  vm_compute. reflexivity.
Defined.

(** X10: the venue of a returned tuple never starts with the period of the
    [In] pattern: it does not start with period, whitespace, [In],
    whitespace. *)
Theorem venue_never_starts_with_period_In (block : str) (r : reference) :
  outcome (parse_reference block) = Ok (Some r) ->
  ~ starts_with_match in_re (venue r).
Proof.
  intros H. destruct (parse_reference_some_inv _ _ H) as (m & _ & _ & ->).
  unfold parsed_value. cbn [venue].
  remember (strip (skipn (m_end m) (strip block))) as ay eqn:Eay.
  unfold title_venue_value.
  destruct (re_search in_re ay) as [im|] eqn:Hin.
  - cbn [snd].
    destruct (re_search_some _ _ _ Hin) as (rest & Hle & Hm & _).
    destruct (in_match_inv _ _ _ Hm)
      as (w1 & ws1 & w2 & ws2 & E & _ & Hw1 & Hws1 & _).
    rewrite Nat.add_comm, <- skipn_skipn, E. cbn [skipn].
    rewrite strip_app_ws_l by (cbn [forallb]; rewrite Hw1; exact Hws1).
    destruct (strip_cons_stop "I"%char ("n"%char :: (w2 :: ws2) ++ rest)
                eq_refl) as (t & ->).
    intros (atoms & segs & post & [<- | []] & HF & E').
    inv_atoms. discriminate E'.
  - assert (Hinf : infix (snd match re_search sentence_re ay with
                              | Some m0 =>
                                  (strip (firstn (m_start m0) ay),
                                   strip (skipn (m_end m0) ay))
                              | None => (strip ay, [])
                              end) ay).
    { destruct (re_search sentence_re ay) as [sm|]; cbn [snd].
      - eapply infix_trans; [apply infix_strip|apply infix_skipn].
      - apply infix_nil. }
    pose proof (no_match_none in_re ay _ Hin Hinf) as Hno.
    apply (Hno []). reflexivity.
Qed.

Lemma venue_never_starts_with_period_In_witness :
  ~ starts_with_match in_re (lit "In Proceedings of Foo.").
Proof.
  apply (venue_never_starts_with_period_In
           (lit "Jane Doe. 2020. A Study. In Proceedings of Foo.")
           (mk_reference (lit "Doe") 2020 (lit "Jane Doe")
              (lit "A Study") (lit "In Proceedings of Foo."))).
  vm_compute. reflexivity.
Defined.

(** X11: when the text after the year, stripped as [parse_reference]
    passes it, contains the [In] pattern, [title_venue] returns a venue
    that starts with [In] followed by whitespace: the period before [In]
    is left out. *)
Theorem in_venue_starts_with_In (after_year : str) :
  strip after_year = after_year ->
  re_search in_re after_year <> None ->
  exists t w v,
    title_venue after_year = ret (t, "I"%char :: "n"%char :: w :: v)
    /\ isspace w = true.
Proof.
  intros Hst Hfound. rewrite title_venue_eq. unfold title_venue_value.
  destruct (re_search in_re after_year) as [im|] eqn:Hin; [|congruence].
  destruct (re_search_some _ _ _ Hin) as (rest & Hle & Hm & _).
  destruct (in_match_inv _ _ _ Hm)
    as (w1 & ws1 & w2 & ws2 & E & _ & Hw1 & Hws1 & Hw2 & Hws2).
  assert (Hrest : strip rest <> []).
  { rewrite <- (re_search_after _ _ _ _ Hm). rewrite <- Hst.
    apply (stripped_tail_nonblank in_re);
      [apply in_re_ends_with_spaces|rewrite Hst; exact Hin]. }
  rewrite Nat.add_comm, <- skipn_skipn, E. cbn [skipn].
  rewrite strip_app_ws_l by (cbn [forallb]; rewrite Hw1; exact Hws1).
  destruct (strip_cons_shape "I"%char ("n"%char :: (w2 :: ws2) ++ rest)
              eq_refl) as (t & trail & -> & Et & Htrail).
  destruct (strip_spec rest) as (lead & tr & Er & Hlead & _ & Hc).
  destruct Hc as [Hc | (c & r0 & Hc & Hcns)]; [congruence|].
  rewrite Hc in Er.
  assert (Esplit : t ++ trail =
                   ("n"%char :: (w2 :: ws2) ++ lead) ++ c :: (r0 ++ tr)).
  { rewrite <- Et, Er. cbn [app]. rewrite <- !app_assoc. reflexivity. }
  destruct (app_run_suffix isspace trail t _ _ _ Esplit Htrail Hcns)
    as (r' & _ & ->).
  cbn [app]. do 3 eexists. split; [reflexivity|exact Hw2].
Qed.

Lemma in_venue_starts_with_In_witness :
  exists t w v,
    title_venue (lit "A Study. In Proceedings of Foo.") =
      ret (t, "I"%char :: "n"%char :: w :: v)
    /\ isspace w = true.
Proof.
  apply (in_venue_starts_with_In (lit "A Study. In Proceedings of Foo.")).
  - reflexivity.
  - vm_compute. discriminate.
Defined.

Lemma many_greedy p (K : str -> option (list str * str)) :
  (forall s, K s = Some ([], s)) ->
  forall s m segs rest,
    many p K s = Some (m, (segs, rest)) -> drop_while p rest = rest.
Proof.
  intros HK. induction s as [|c s IH]; intros m segs rest; cbn [many].
  - rewrite HK. cbn [option_map]. intros [= _ _ <-]. reflexivity.
  - destruct (p c) eqn:Hc.
    + destruct (many p K s) as [[m' [segs' rest']]|] eqn:Hm.
      * intros [= _ _ <-]. apply (IH _ _ _ eq_refl).
      * exfalso. revert Hm. apply many_here. rewrite HK. discriminate.
    + rewrite HK. cbn [option_map]. intros [= _ _ <-]. cbn [drop_while].
      rewrite Hc. reflexivity.
Qed.

Lemma match_atoms_One p k s :
  match_atoms (One p :: k) s =
  match s with
  | c :: s' =>
      if p c then
        match match_atoms k s' with
        | Some (segs, rest) => Some ([c] :: segs, rest)
        | None => None
        end
      else None
  | [] => None
  end.
Proof. reflexivity. Qed.

Lemma match_atoms_Many1 p k s :
  match_atoms (Many1 p :: k) s =
  match s with
  | c :: s' =>
      if p c then
        match many p (match_atoms k) s' with
        | Some (m, (segs, rest)) => Some ((c :: m) :: segs, rest)
        | None => None
        end
      else None
  | [] => None
  end.
Proof. reflexivity. Qed.

(** A sequence that ends with [p+] takes the whole run of [p]. *)
Lemma match_atoms_greedy p k : forall s segs rest,
  match_atoms (k ++ [Many1 p]) s = Some (segs, rest) ->
  drop_while p rest = rest.
Proof.
  induction k as [|a k IH]; intros s segs rest.
  - cbn [app]. rewrite match_atoms_Many1.
    destruct s as [|c s]; [discriminate|].
    destruct (p c); [|discriminate].
    destruct (many p (match_atoms []) s) as [[m [segs' rest']]|] eqn:Hm;
      [|discriminate].
    intros [= _ <-].
    apply (many_greedy p (match_atoms []) (fun _ => eq_refl) _ _ _ _ Hm).
  - cbn [app]. destruct a as [q|q].
    + rewrite match_atoms_One.
      destruct s as [|c s]; [discriminate|].
      destruct (q c); [|discriminate].
      destruct (match_atoms (k ++ [Many1 p]) s) as [[segs' rest']|] eqn:Hk;
        [|discriminate].
      intros [= _ <-]. apply (IH _ _ _ Hk).
    + rewrite match_atoms_Many1.
      destruct s as [|c s]; [discriminate|].
      destruct (q c); [|discriminate].
      destruct (many q (match_atoms (k ++ [Many1 p])) s)
        as [[m [segs' rest']]|] eqn:Hm; [|discriminate].
      intros [= _ <-].
      destruct (many_sound _ _ _ _ _ Hm) as (_ & r & _ & Hk).
      apply (IH _ _ _ Hk).
Qed.

Lemma match_alts_greedy r s segs rest :
  ends_with_spaces r ->
  match_alts r s = Some (segs, rest) -> lstrip rest = rest.
Proof.
  intros Hr. induction r as [|a r IH]; [discriminate|].
  cbn [match_alts]. destruct (match_atoms a s) as [[segs' rest']|] eqn:Ha.
  - intros [= _ <-]. destruct (Hr a (or_introl eq_refl)) as (k & ->).
    apply (match_atoms_greedy _ _ _ _ _ Ha).
  - apply IH. intros atoms Hin. apply Hr. right. exact Hin.
Qed.

(** X12: the [\s+] that ends the year pattern, the [In] pattern and the
    sentence pattern is greedy: the text after a match found by
    [re.search] does not start with whitespace. *)
Theorem match_takes_all_whitespace (s : str) (m : rmatch) :
  re_search year_re s = Some m \/ re_search in_re s = Some m
  \/ re_search sentence_re s = Some m ->
  lstrip (skipn (m_end m) s) = skipn (m_end m) s.
Proof.
  intros [H | [H | H]];
    destruct (re_search_some _ _ _ H) as (rest & _ & Hm & _);
    rewrite (re_search_after _ _ _ _ Hm);
    eapply match_alts_greedy; try exact Hm.
  - apply year_re_ends_with_spaces.
  - apply in_re_ends_with_spaces.
  - apply sentence_re_ends_with_spaces.
Qed.

Lemma match_takes_all_whitespace_witness :
  lstrip (skipn 5 (lit "A.   B")) = skipn 5 (lit "A.   B").
Proof.
  apply (match_takes_all_whitespace (lit "A.   B")
           (mk_rmatch 1 [lit "."; lit "   "])).
  right. right. reflexivity.
Defined.

(** ** The order of the page *)

Lemma sort_by_sorted_id {A K} (ltb : K -> K -> bool) (key : A -> K) l :
  StronglySorted (in_order ltb key) l -> sort_by ltb key l = l.
Proof.
  induction 1 as [|x l Hs IH Hx]; [reflexivity|].
  cbn [sort_by]. rewrite IH. destruct Hx as [|y l' Hy _]; [reflexivity|].
  cbn [insert_by]. unfold in_order in Hy. rewrite Hy. reflexivity.
Qed.

(** X13: sorting is idempotent: sorting the sorted references again leaves
    them as they are. *)
Theorem sort_refs_idempotent (parsed_refs : list reference) :
  sort_refs (sort_refs parsed_refs) = sort_refs parsed_refs.
Proof.
  unfold sort_refs. apply sort_by_sorted_id.
  apply sort_by_sorted;
    [apply key_ltb_irrefl|apply key_ltb_trans|apply key_ltb_total].
Qed.

(** Two sorted arrangements of the same elements are equal when no two
    elements have the same key. *)
Lemma sorted_perm_unique {A K} (ltb : K -> K -> bool) (key : A -> K) :
  (forall a b, ltb a b = false -> ltb b a = false -> a = b) ->
  forall l1 l2,
    StronglySorted (in_order ltb key) l1 ->
    StronglySorted (in_order ltb key) l2 ->
    Permutation l1 l2 -> NoDup (map key l1) -> l1 = l2.
Proof.
  intros Htotal. induction l1 as [|x l1 IH]; intros l2 S1 S2 P ND.
  - apply Permutation_nil in P. congruence.
  - destruct l2 as [|y l2].
    { apply Permutation_sym, Permutation_nil in P. discriminate. }
    apply StronglySorted_inv in S1. destruct S1 as [S1 F1].
    apply StronglySorted_inv in S2. destruct S2 as [S2 F2].
    cbn [map] in ND. apply NoDup_cons_iff in ND. destruct ND as [Nx ND].
    assert (Exy : x = y).
    { pose proof (Permutation_in x P (or_introl eq_refl)) as Hx.
      pose proof (Permutation_in y (Permutation_sym P) (or_introl eq_refl))
        as Hy.
      destruct Hx as [Hx | Hx]; [congruence|].
      destruct Hy as [Hy | Hy]; [congruence|].
      rewrite Forall_forall in F1, F2.
      pose proof (F1 _ Hy) as H1. pose proof (F2 _ Hx) as H2.
      unfold in_order in H1, H2.
      exfalso. apply Nx. rewrite (Htotal _ _ H2 H1).
      apply in_map, Hy. }
    subst y. f_equal. apply IH; try assumption.
    apply (Permutation_cons_inv P).
Qed.

(** X14: when no two references have the same key, the sorted list does
    not depend on the order in which the blocks came. *)
Theorem sort_refs_order_independent (refs1 refs2 : list reference) :
  Permutation refs1 refs2 ->
  NoDup (map sort_key refs1) ->
  sort_refs refs1 = sort_refs refs2.
Proof.
  intros P ND. unfold sort_refs.
  apply (sorted_perm_unique key_ltb sort_key key_ltb_total).
  - apply sort_by_sorted;
      [apply key_ltb_irrefl|apply key_ltb_trans|apply key_ltb_total].
  - apply sort_by_sorted;
      [apply key_ltb_irrefl|apply key_ltb_trans|apply key_ltb_total].
  - rewrite <- (sort_by_perm key_ltb sort_key refs1).
    rewrite <- (sort_by_perm key_ltb sort_key refs2). exact P.
  - apply (Permutation_NoDup
             (Permutation_map sort_key (sort_by_perm key_ltb sort_key refs1))).
    exact ND.
Qed.

Lemma sort_refs_order_independent_witness :
  sort_refs
    [mk_reference (lit "Smith") 2021 (lit "A Smith") (lit "T1") [];
     mk_reference (lit "Adams") 2019 (lit "B Adams") (lit "T2") []]
  = sort_refs
      [mk_reference (lit "Adams") 2019 (lit "B Adams") (lit "T2") [];
       mk_reference (lit "Smith") 2021 (lit "A Smith") (lit "T1") []].
Proof.
  apply sort_refs_order_independent.
  - apply perm_swap.
  - repeat constructor; cbn [map In]; intros H;
      repeat (destruct H as [H | H]; [discriminate H|]); exact H.
Defined.

(** ** Splitting the text into blocks *)

Lemma startswith_prefix sep : forall s,
  startswith sep s = true -> exists rest, s = sep ++ rest.
Proof.
  induction sep as [|a sep IH]; intros s H; [exists s; reflexivity|].
  destruct s as [|c s]; [discriminate|]. cbn [startswith] in H.
  apply andb_true_iff in H. destruct H as [Hc H].
  apply Ascii.eqb_eq in Hc. subst c.
  destruct (IH _ H) as (rest & ->). exists rest. reflexivity.
Qed.

Lemma split_sep_aux_skip sep pre : forall cur rest,
  split_sep_aux sep (length pre) cur (pre ++ rest) =
  split_sep_aux sep 0 cur rest.
Proof.
  induction pre as [|c pre IH]; intros cur rest; [reflexivity|].
  cbn [length app split_sep_aux]. apply IH.
Qed.

Lemma split_sep_aux_nonempty sep s : forall k cur,
  split_sep_aux sep k cur s <> [].
Proof.
  induction s as [|c s IH]; intros k cur; cbn [split_sep_aux];
    [discriminate|].
  destruct k as [|k]; [|apply IH].
  destruct (startswith sep (c :: s)); [discriminate|apply IH].
Qed.

Lemma join_cons sep p l :
  l <> [] -> join sep (p :: l) = p ++ sep ++ join sep l.
Proof. destruct l; [congruence|reflexivity]. Qed.

Lemma join_split_sep_aux sep :
  sep <> [] ->
  forall n s cur,
    length s <= n ->
    join sep (split_sep_aux sep 0 cur s) = rev cur ++ s.
Proof.
  intros Hsep. induction n as [|n IH]; intros s cur Hn.
  - destruct s; [|cbn [length] in Hn; lia].
    cbn [split_sep_aux join]. rewrite app_nil_r. reflexivity.
  - destruct s as [|c s].
    { cbn [split_sep_aux join]. rewrite app_nil_r. reflexivity. }
    cbn [split_sep_aux].
    destruct (startswith sep (c :: s)) eqn:Hst.
    + destruct (startswith_prefix _ _ Hst) as (rest & E).
      destruct sep as [|a sep']; [congruence|].
      cbn [app] in E. injection E as -> ->.
      replace (length (a :: sep') - 1) with (length sep')
        by (cbn [length]; lia).
      rewrite split_sep_aux_skip.
      rewrite join_cons by apply split_sep_aux_nonempty.
      rewrite IH
        by (cbn [length] in Hn; rewrite length_app in Hn; lia).
      reflexivity.
    + rewrite IH by (cbn [length] in Hn; lia).
      cbn [rev]. rewrite <- app_assoc. reflexivity.
Qed.

(** X15: splitting loses nothing: joining the pieces of [split] with the
    separator gives the text back, so the content of the input file is
    its blocks with a blank line between them. *)
Theorem join_split_roundtrip (sep s : str) :
  sep <> [] -> join sep (split_sep sep s) = s.
Proof.
  intros Hsep. unfold split_sep.
  rewrite (join_split_sep_aux sep Hsep (length s)) by lia. reflexivity.
Qed.

Lemma join_split_roundtrip_witness :
  join (newline ++ newline)
    (split_sep (newline ++ newline)
       (lit "A. 2020. T." ++ newline ++ newline ++ newline ++ lit "B"))
  = lit "A. 2020. T." ++ newline ++ newline ++ newline ++ lit "B".
Proof.
  apply join_split_roundtrip. discriminate.
Defined.

Lemma startswith_app sep : forall s t,
  startswith sep s = true -> startswith sep (s ++ t) = true.
Proof.
  induction sep as [|a sep IH]; intros s t H; [reflexivity|].
  destruct s as [|c s]; [discriminate|]. cbn [startswith app] in *.
  apply andb_true_iff in H. destruct H as [Hc H]. rewrite Hc.
  apply IH, H.
Qed.

(** While a piece is read, the separator starts at none of the places
    already passed. *)
Lemma split_sep_aux_pieces sep :
  sep <> [] ->
  forall n s cur,
    length s <= n ->
    (forall pre post,
       rev cur = pre ++ post -> post <> [] ->
       startswith sep (post ++ s) = false) ->
    forall piece pre post,
      In piece (split_sep_aux sep 0 cur s) ->
      piece = pre ++ post -> startswith sep post = false.
Proof.
  intros Hsep.
  assert (Hcur : forall cur s,
    (forall pre post,
       rev cur = pre ++ post -> post <> [] ->
       startswith sep (post ++ s) = false) ->
    forall pre post, rev cur = pre ++ post -> startswith sep post = false).
  { intros cur s HP pre post E. destruct post as [|x post].
    - destruct sep; [congruence|reflexivity].
    - destruct (startswith sep (x :: post)) eqn:Hst; [|reflexivity].
      rewrite <- (HP pre (x :: post) E) by discriminate.
      symmetry. apply startswith_app, Hst. }
  induction n as [|n IH]; intros s cur Hn HP piece pre post Hin E.
  - destruct s; [|cbn [length] in Hn; lia].
    cbn [split_sep_aux] in Hin. destruct Hin as [<- | []].
    apply (Hcur cur [] HP pre post). exact E.
  - destruct s as [|c s].
    { cbn [split_sep_aux] in Hin. destruct Hin as [<- | []].
      apply (Hcur cur [] HP pre post). exact E. }
    cbn [split_sep_aux] in Hin.
    destruct (startswith sep (c :: s)) eqn:Hst.
    + destruct Hin as [<- | Hin].
      * apply (Hcur cur (c :: s) HP pre post). exact E.
      * destruct (startswith_prefix _ _ Hst) as (rest & Es).
        destruct sep as [|a sep']; [congruence|].
        cbn [app] in Es. injection Es as -> ->.
        replace (length (a :: sep') - 1) with (length sep') in Hin
          by (cbn [length]; lia).
        rewrite split_sep_aux_skip in Hin.
        apply (IH rest [] ) with (piece := piece) (pre := pre);
          [cbn [length] in Hn; rewrite length_app in Hn; lia
          | |exact Hin|exact E].
        intros pre' post' E' Hne. cbn [rev] in E'.
        destruct pre'; destruct post'; try discriminate E'. congruence.
    + apply (IH s (c :: cur)) with (piece := piece) (pre := pre);
        [cbn [length] in Hn; lia| |exact Hin|exact E].
      intros pre' post' E' Hne. cbn [rev] in E'.
      destruct (@exists_last _ post' Hne) as (post0 & x & ->).
      rewrite app_assoc in E'. apply app_inj_tail in E'.
      destruct E' as [E' <-]. rewrite <- app_assoc. cbn [app].
      destruct post0 as [|y post0]; [exact Hst|].
      apply (HP pre' (y :: post0) E'). discriminate.
Qed.

(** X16: no piece of [split] contains the separator, so no block that
    [main] passes to [parse_reference] has a blank line in it. *)
Theorem blocks_have_no_separator (sep s piece pre post : str) :
  sep <> [] ->
  In piece (split_sep sep s) ->
  piece = pre ++ post ->
  startswith sep post = false.
Proof.
  intros Hsep Hin E. unfold split_sep in Hin.
  apply (split_sep_aux_pieces sep Hsep (length s) s [] (le_n _))
    with (piece := piece) (pre := pre); try assumption.
  intros pre' post' E' Hne. cbn [rev] in E'.
  destruct pre'; destruct post'; try discriminate E'. congruence.
Qed.

Lemma blocks_have_no_separator_witness :
  startswith (newline ++ newline) (newline ++ lit "B") = false.
Proof.
  apply (blocks_have_no_separator (newline ++ newline)
           (lit "A" ++ newline ++ newline ++ newline ++ lit "B")
           (newline ++ lit "B") [] (newline ++ lit "B")).
  - discriminate.
  - vm_compute. right. left. reflexivity.
  - reflexivity.
Defined.

(** ** The year on the page *)

Lemma ascii_digit_isdecimal d :
  In d (lit "0123456789") -> isdecimal d = true.
Proof.
  cbn [lit list_ascii_of_string In]. intros H.
  repeat (destruct H as [<- | H]; [reflexivity|]). destruct H.
Qed.

Lemma year_prints_back_true : year_prints_back = true.
Proof. vm_compute. reflexivity. Qed.

(** X17: a year written with four of the digits [0] to [9], the first not
    [0], comes out on the page as it was written: [int] of the four
    digits raises nothing and, printed, is the four digits again. *)
Theorem ascii_year_printed_as_written (d1 d2 d3 d4 : ascii) :
  In d1 (lit "0123456789") -> In d2 (lit "0123456789") ->
  In d3 (lit "0123456789") -> In d4 (lit "0123456789") ->
  d1 <> "0"%char ->
  exists y,
    py_int [d1; d2; d3; d4] = ret y
    /\ str_of_Z y = [d1; d2; d3; d4].
Proof.
  intros H1 H2 H3 H4 Hz. exists (decimal_value [d1; d2; d3; d4]).
  split; [apply py_int_digits; apply ascii_digit_isdecimal; assumption|].
  pose proof year_prints_back_true as Hall. unfold year_prints_back in Hall.
  rewrite forallb_forall in Hall. specialize (Hall d1 H1).
  apply orb_true_iff in Hall. destruct Hall as [Hall | Hall].
  { apply Ascii.eqb_eq in Hall. congruence. }
  rewrite forallb_forall in Hall. specialize (Hall d2 H2).
  rewrite forallb_forall in Hall. specialize (Hall d3 H3).
  rewrite forallb_forall in Hall. specialize (Hall d4 H4).
  apply str_eqb_eq, Hall.
Qed.

Lemma ascii_year_printed_as_written_witness :
  exists y,
    py_int (lit "1843") = ret y /\ str_of_Z y = lit "1843".
Proof.
  apply (ascii_year_printed_as_written "1" "8" "4" "3");
    try discriminate; cbn [lit list_ascii_of_string In]; auto 12.
Defined.

(** ** Edge cases of a block *)

(** X18: [parse_reference] prints only for a block that is not blank and
    has no year: it prints nothing exactly when the block is blank or a
    tuple is returned. *)
Theorem silent_unless_year_missing (block : str) :
  printed (parse_reference block) = []
  <-> forallb isspace block = true
      \/ exists r, outcome (parse_reference block) = Ok (Some r).
Proof.
  destruct (parse_reference_cases block)
    as [[Hb E] | [(Hb & _ & E) | (m & Hb & _ & E)]]; rewrite E;
    unfold ret, printed, outcome; cbn [fst snd].
  - split; [|reflexivity]. intros _. left. apply blank_iff_strip_nil, Hb.
  - split; [discriminate|]. intros [H | (r & [=])].
    apply blank_iff_strip_nil in H. congruence.
  - split; [|reflexivity]. intros _. right. eauto.
Qed.

(** X19: without a first author the last name is the placeholder: when
    the author text of a returned tuple is empty or starts with a comma,
    its last name is [Unknown]. *)
Theorem no_author_gives_Unknown (block : str) (r : reference) :
  outcome (parse_reference block) = Ok (Some r) ->
  authors_str r = [] \/ (exists rest, authors_str r = ","%char :: rest) ->
  first_author_last r = lit "Unknown".
Proof.
  intros H Ha. destruct (parse_reference_some_inv _ _ H) as (m & _ & _ & ->).
  unfold parsed_value in *. cbn [first_author_last authors_str] in *.
  destruct Ha as [-> | (rest & ->)]; reflexivity.
Qed.

Lemma no_author_gives_Unknown_witness :
  first_author_last
    (mk_reference (lit "Unknown") 2020 (lit ", B. Smith")
       (lit "Title") (lit "Venue."))
  = lit "Unknown".
Proof.
  apply (no_author_gives_Unknown
           (lit ", B. Smith. 2020. Title. Venue.")
           (mk_reference (lit "Unknown") 2020 (lit ", B. Smith")
              (lit "Title") (lit "Venue."))).
  - vm_compute. reflexivity.
  - right. exists (lit " B. Smith"). reflexivity.
Defined.
